(** * Patch-locality classification of code-review issues

    A shallow embedding of the management command
    [issues/management/commands/load_in_patch.py] and of the publishable
    filters of [issues/api.py], with the properties of the written
    specification stated and settled against them.

    Python integers are [Z], Python strings are [string], dictionaries keyed
    by strings are [gmap string _], database tables are [gmap Z _] keyed by
    primary key, and code that logs, talks to the network, writes to the
    database or raises is written in a small state-and-exception monad. *)

From Stdlib Require Import ZArith String List Lia Sorting.Sorted.
From stdpp Require Import base option list gmap strings sorting fin_maps.

Local Open Scope string_scope.
Local Open Scope list_scope.
Local Open Scope Z_scope.

(** ** Data model (the fields of [issues/models.py] that the code reads) *)

Module Models.

(** [Issue]: [issue.path], [issue.line] (nullable) and [issue.nb_lines],
    the line count that every issue carries. *)
Record Issue := mkIssue {
  path : string;
  line : option Z;
  nb_lines : Z;
}.

(** An [IssueLink] model instance as Python holds it: primary key, the two
    foreign keys, the related issue, and the tri-state [in_patch]. *)
Record IssueLink := mkIssueLink {
  id : Z;
  diff_id : option Z;
  revision_id : Z;
  issue : Issue;
  in_patch : option bool;
}.

(** Attribute assignment [issue_link.in_patch = b]. *)
Definition set_in_patch (issue_link : IssueLink) (b : option bool) : IssueLink :=
  {| id := id issue_link;
     diff_id := diff_id issue_link;
     revision_id := revision_id issue_link;
     issue := issue issue_link;
     in_patch := b |}.

(** The same entity as a row of the [issue_link] table; the primary key is
    the key of the table. *)
Record IssueLinkRow := mkIssueLinkRow {
  row_diff_id : option Z;
  row_revision_id : Z;
  row_issue : Issue;
  row_in_patch : option bool;
}.

Definition load_link (pk : Z) (r : IssueLinkRow) : IssueLink :=
  {| id := pk;
     diff_id := row_diff_id r;
     revision_id := row_revision_id r;
     issue := row_issue r;
     in_patch := row_in_patch r |}.

(** [UPDATE issue_link SET in_patch = b] on one row. *)
Definition row_set_in_patch (b : option bool) (r : IssueLinkRow) : IssueLinkRow :=
  {| row_diff_id := row_diff_id r;
     row_revision_id := row_revision_id r;
     row_issue := row_issue r;
     row_in_patch := b |}.

Record Repository := mkRepository { url : string }.

(** A [Diff] model instance: [diff.id] (here [diff_pk], [id] being taken by
    the link), [diff.repository], [diff.mercurial_hash]. *)
Record Diff := mkDiff {
  diff_pk : Z;
  repository : Repository;
  mercurial_hash : string;
}.

Record DiffRow := mkDiffRow {
  row_repository : Repository;
  row_mercurial_hash : string;
}.

Definition load_diff (pk : Z) (r : DiffRow) : Diff :=
  {| diff_pk := pk;
     repository := row_repository r;
     mercurial_hash := row_mercurial_hash r |}.

(** The two tables the command touches. *)
Record DB := mkDB {
  diff_table : gmap Z DiffRow;
  issue_link_table : gmap Z IssueLinkRow;
}.

#[global] Instance Issue_eq_dec : EqDecision Issue.
Proof. solve_decision. Defined.
#[global] Instance IssueLink_eq_dec : EqDecision IssueLink.
Proof. solve_decision. Defined.
#[global] Instance IssueLinkRow_eq_dec : EqDecision IssueLinkRow.
Proof. solve_decision. Defined.
#[global] Instance Repository_eq_dec : EqDecision Repository.
Proof. solve_decision. Defined.
#[global] Instance Diff_eq_dec : EqDecision Diff.
Proof. solve_decision. Defined.
#[global] Instance DiffRow_eq_dec : EqDecision DiffRow.
Proof. solve_decision. Defined.

End Models.

(** ** The classifier, [detect_in_patch] *)

Module Classifier.
Import Models.

(** Python's [range(start, stop)] (step one). *)
Definition range (start stop : Z) : list Z := seqZ start (stop - start).

(** [s.isdisjoint(other)] for a set [s] and an iterable [other]: no element
    of [other] is a member of [s]. *)
Definition isdisjoint (s : gset Z) (other : list Z) : bool :=
  forallb (λ x, bool_decide (x ∉ s)) other.

(** [detect_in_patch(issue_link, lines)], with [lines] the dictionary that
    [load_hgmo_patch] returns. The three branches assign
    [issue_link.in_patch] and the link itself is returned. *)
Definition detect_in_patch (issue_link : IssueLink) (lines : gmap string (list Z)) : IssueLink :=
  let modified_lines := lines !! path (issue issue_link) in
  match modified_lines with
  | None =>
      (* File not in patch *)
      set_in_patch issue_link (Some false)
  | Some modified_lines =>
      match line (issue issue_link) with
      | None =>
          (* Empty line means full file *)
          set_in_patch issue_link (Some true)
      | Some ln =>
          let chunk_lines : gset Z :=
            list_to_set (range ln (ln + nb_lines (issue issue_link))) in
          set_in_patch issue_link (Some (negb (isdisjoint chunk_lines modified_lines)))
      end
  end.

(** Python passes [issue_link] by reference: the assignment is an update of
    the object store at that reference, and the reference passed in is the
    one returned. [None] stands for a dangling reference, which Python
    cannot produce. *)
Definition detect_in_patch_ref (r : positive) (lines : gmap string (list Z))
    (heap : gmap positive IssueLink) : option (positive * gmap positive IssueLink) :=
  match heap !! r with
  | None => None
  | Some issue_link => Some (r, <[r := detect_in_patch issue_link lines]> heap)
  end.

End Classifier.

(** ** Effects: log, network, database and exceptions *)

Module Effects.
Import Models.

(** The exceptions the command can meet. All of them derive from Python's
    [Exception]. *)
Inductive exn :=
| ConnectionError
| HTTPError (status_code : Z)
| JSONDecodeError
| IndexError
| AssertionError (msg : string)
| PatchParseError
| DatabaseError.

(** What [requests.get] returns. *)
Record Response := mkResponse {
  status_code : Z;
  text : string;
}.

(** The decoded body of [json-rev]: [meta["desc"]] and [meta["parents"]]. *)
Record Meta := mkMeta {
  desc : string;
  parents : list string;
}.

(** One file of the dictionary that [Patch.parse_patch] returns; either key
    may be missing, which is what [diff.get(key, [])] provides for. *)
Record FileChanges := mkFileChanges {
  touched : option (list Z);
  added : option (list Z);
}.

(** The world outside the command, fixed for the length of one run: the
    remote service as a function of the URL, the JSON decoder, the
    [parsepatch] parser, and whether the database accepts a batch. *)
Record Env := mkEnv {
  requests_get : string → exn + Response;
  json : string → exn + Meta;
  parse_patch : string → exn + gmap string FileChanges;
  bulk_update_error : list IssueLink → option exn;
}.

(** Records handed to [logging.info] and, for [WillProcess], to
    [logger.debug]. *)
Inductive LogRecord :=
| Downloading (url : string)
| FoundInPatch (n : nat) (diff : Z)
| FailureOnDiff (diff : Z) (e : exn)
| WillProcess (n : nat).

(** The state the command acts on: the database, the records that the
    logging module emitted, and the URLs requested from the network, oldest
    first. *)
Record World := mkWorld {
  db : DB;
  log : list LogRecord;
  requested : list string;
}.

(** A computation runs on a world and ends with a value or a raised
    exception; what it did to the world before raising stays done. *)
Definition M (A : Type) : Type := World → (exn + A) * World.

Definition ret {A} (a : A) : M A := λ w, (inr a, w).

Definition raise {A} (e : exn) : M A := λ w, (inl e, w).

Definition bind {A B} (m : M A) (k : A → M B) : M B :=
  λ w, match m w with
       | (inl e, w') => (inl e, w')
       | (inr a, w') => k a w'
       end.

(** [try: body except Exception as e: handler(e)]. *)
Definition try_except {A} (body : M A) (handler : exn → M A) : M A :=
  λ w, match body w with
       | (inl e, w') => handler e w'
       | (inr a, w') => (inr a, w')
       end.

Definition lift {A} (r : exn + A) : M A := λ w, (r, w).

Definition logging_info (r : LogRecord) : M unit :=
  λ w, (inr tt, mkWorld (db w) (log w ++ [r]) (requested w)).

(** The numeric levels of the logging module. *)
Definition DEBUG : Z := 10.
Definition INFO : Z := 20.

(** [logging.basicConfig(level=logging.INFO)], at the top of the module:
    the level of the root logger, which [getLogger(__name__)] inherits. *)
Definition basicConfig_level : Z := INFO.

(** [logger.debug]: the record is emitted when DEBUG is enabled for the
    logger, which is when the effective level is at most DEBUG; otherwise
    the call does nothing. *)
Definition logger_debug (r : LogRecord) : M unit :=
  if bool_decide (basicConfig_level ≤ DEBUG) then logging_info r else ret tt.

Definition get_db : M DB := λ w, (inr (db w), w).

Definition put_db (d : DB) : M unit :=
  λ w, (inr tt, mkWorld d (log w) (requested w)).

(** [requests.get(url, headers=...)]: the request is made, then it answers
    or raises. *)
Definition http_get (env : Env) (u : string) : M Response :=
  λ w, (requests_get env u, mkWorld (db w) (log w) (requested w ++ [u])).

(** [resp.raise_for_status()]: client and server error codes raise. *)
Definition raise_for_status (resp : Response) : M unit :=
  if bool_decide (400 ≤ status_code resp < 600)
  then raise (HTTPError (status_code resp))
  else ret tt.

End Effects.

Declare Scope cmd_scope.
Delimit Scope cmd_scope with cmd.
Notation "'let!' x ':=' m 'in' k" := (Effects.bind m (λ x, k))
  (at level 10, x name, m at level 100, k at level 200) : cmd_scope.
Notation "m ;;; k" := (Effects.bind m (λ _, k))
  (at level 100, right associativity) : cmd_scope.

(** ** The command *)

Module LoadInPatch.
Import Models Classifier Effects.
Local Open Scope cmd_scope.

(** The [if]/[else] of [load_hgmo_patch] that assigns [patch_rev];
    [parents[0]] raises on an empty list. *)
Definition patch_rev (diff : Diff) (meta : Meta) : exn + string :=
  if String.prefix "try_task_config" (desc meta)
  then match parents meta with
       | [] => inl IndexError
       | p :: _ => inr p
       end
  else inr (mercurial_hash diff).

(** [load_hgmo_patch(diff)]. *)
Definition load_hgmo_patch (env : Env) (diff : Diff) : M (gmap string (list Z)) :=
  (* Load the parent info as we have the try-task-config commit *)
  let url1 := url (repository diff) +:+ "/json-rev/" +:+ mercurial_hash diff in
  logging_info (Downloading url1) ;;;
  let! resp := http_get env url1 in
  raise_for_status resp ;;;
  let! meta := lift (json env (text resp)) in
  let! patch_rev := lift (patch_rev diff meta) in
  (* Load the parent patch *)
  let url2 := url (repository diff) +:+ "/raw-rev/" +:+ patch_rev in
  logging_info (Downloading url2) ;;;
  let! resp := http_get env url2 in
  raise_for_status resp ;;;
  let! patch := lift (parse_patch env (text resp)) in
  (if bool_decide (patch = ∅) then raise (AssertionError "Empty patch") else ret tt) ;;;
  (* Use all changes in new files *)
  let lines := (λ d, default [] (touched d) ++ default [] (added d)) <$> patch in
  ret lines.

(** [diff.issue_links.all()]: the rows whose foreign key is this diff. *)
Definition issue_links_all (d : DB) (pk : Z) : list IssueLink :=
  (λ kr, load_link kr.1 kr.2) <$>
    map_to_list (filter (λ kr, row_diff_id kr.2 = Some pk) (issue_link_table d)).

(** [IssueLink.objects.bulk_update(objs, ["in_patch"])]: for every object,
    the row with its primary key gets the object's [in_patch]; no other
    column is named in the statement. Django runs the batch in one
    transaction, so a batch that raises leaves the table as it was. *)
Definition bulk_update_rows (objs : list IssueLink) (t : gmap Z IssueLinkRow) : gmap Z IssueLinkRow :=
  foldr (λ o t, alter (row_set_in_patch (in_patch o)) (id o) t) t objs.

Definition bulk_update (env : Env) (objs : list IssueLink) : M unit :=
  match bulk_update_error env objs with
  | Some e => raise e
  | None =>
      let! d := get_db in
      put_db (mkDB (diff_table d) (bulk_update_rows objs (issue_link_table d)))
  end.

(** The body of the [try] in [process_diff]. *)
Definition process_diff_body (env : Env) (diff : Diff) : M unit :=
  let! lines := load_hgmo_patch env diff in
  let! d := get_db in
  let issue_links :=
    (λ issue_link, detect_in_patch issue_link lines) <$> issue_links_all d (diff_pk diff) in
  logging_info
    (FoundInPatch (length (filter (λ i, in_patch i = Some true) issue_links)) (diff_pk diff)) ;;;
  bulk_update env issue_links.

(** [process_diff(diff)]. *)
Definition process_diff (env : Env) (diff : Diff) : M unit :=
  try_except (process_diff_body env diff)
    (λ e, logging_info (FailureOnDiff (diff_pk diff) e)).

(** The join that [filter(issue_links__in_patch__isnull=True)] selects from.
    Django joins a reverse relation with LEFT OUTER JOIN, and an
    [isnull=True] lookup does not turn the join into an inner one: a diff
    without any link contributes one row whose link columns are all NULL
    (Django documentation, "Lookups that span relationships": a missing
    related object is treated as one whose values are all NULL, which shows
    with [isnull]). *)
Definition diff_left_join_issue_links (d : DB) : list (Diff * option IssueLink) :=
  kr ← map_to_list (diff_table d) ;
  let diff := load_diff kr.1 kr.2 in
  match issue_links_all d (diff_pk diff) with
  | [] => [(diff, None)]
  | links => (λ l, (diff, Some l)) <$> links
  end.

(** [issue_link.in_patch IS NULL] on a joined row. *)
Definition in_patch__isnull (r : Diff * option IssueLink) : bool :=
  match r.2 with
  | None => true
  | Some l => bool_decide (in_patch l = None)
  end.

(** [ORDER BY id], ascending. *)
Definition id_le (a b : Diff) : Prop := diff_pk a ≤ diff_pk b.

#[global] Instance id_le_dec : RelDecision id_le.
Proof. intros a b. unfold id_le. apply _. Defined.

#[global] Instance id_le_total : Total id_le.
Proof. intros a b. unfold id_le. lia. Qed.

#[global] Instance id_le_transitive : Transitive id_le.
Proof. intros a b c. unfold id_le. lia. Qed.

Definition order_by_id : list Diff → list Diff := merge_sort id_le.

(** [Diff.objects.filter(issue_links__in_patch__isnull=True)
       .order_by("id").distinct()]. *)
Definition pending_diffs (d : DB) : list Diff :=
  remove_dups (order_by_id (fst <$> List.filter in_patch__isnull (diff_left_join_issue_links d))).

(** [pool.map(process_diff, diffs, chunksize=20)] with the default single
    worker: the diffs are processed one after the other, in order; an
    exception raised by a task would be raised again by [map]. *)
Fixpoint pool_map (f : Diff → M unit) (diffs : list Diff) : M unit :=
  match diffs with
  | [] => ret tt
  | diff :: diffs => f diff ;;; pool_map f diffs
  end.

(** [Command.handle]. *)
Definition handle (env : Env) : M unit :=
  (* Only apply on diffs with issues that are not already processed *)
  let! d := get_db in
  let diffs := pending_diffs d in
  logger_debug (WillProcess (length diffs)) ;;;
  (* Process all the diffs in parallel *)
  pool_map (process_diff env) diffs.

End LoadInPatch.

(** ** The publishable filters of the API *)

Module Api.

(** Modelled from the spec: the constant [LEVEL_ERROR] of
    [issues/models.py], a file that is not among the sources. The
    specification names the level "error", the literal that [DiffViewSet]
    itself compares [issues__level] with when it counts errors. *)
Definition LEVEL_ERROR : string := "error".

(** The columns of an issue that the two views read. [in_patch] is
    nullable; [head_repositories] are the slugs reached through
    [revisions__head_repository__slug], one per linked revision. *)
Record Issue := mkIssue {
  issue_id : Z;
  level : string;
  in_patch : option bool;
  analyzer : string;
  analyzer_check : string;
  created : Z;
  head_repositories : list string;
}.

#[global] Instance api_issue_eq_dec : EqDecision Issue.
Proof. solve_decision. Defined.

(** The [Q] objects that the views build. *)
Inductive Q :=
| Q_in_patch (v : bool)    (* Q(in_patch=v), Q(issues__in_patch=v) *)
| Q_level (v : string)     (* Q(level=v), Q(issues__level=v) *)
| Q_or (a b : Q).          (* a | b *)

(** SQL's three-valued OR; [None] is NULL. *)
Definition sql_or (a b : option bool) : option bool :=
  match a, b with
  | Some true, _ | _, Some true => Some true
  | Some false, Some false => Some false
  | _, _ => None
  end.

(** The condition a [Q] compiles to, on one row: a comparison with a NULL
    column is NULL. *)
Fixpoint sql_eval (q : Q) (i : Issue) : option bool :=
  match q with
  | Q_in_patch v => (λ b, bool_decide (b = v)) <$> in_patch i
  | Q_level v => Some (bool_decide (level i = v))
  | Q_or a b => sql_or (sql_eval a i) (sql_eval b i)
  end.

(** A row passes WHERE, or is counted by [Count(..., filter=q)], when the
    condition is true; false and NULL both drop it. *)
Definition sql_where (q : Q) (i : Issue) : bool :=
  match sql_eval q i with
  | Some true => true
  | _ => false
  end.

(** [queryset.filter(q)] and [queryset.exclude(q)]; Django guards the
    negation so that [exclude] returns the rows [filter] drops. *)
Definition qs_filter (q : Q) (queryset : list Issue) : list Issue :=
  List.filter (sql_where q) queryset.

Definition qs_exclude (q : Q) (queryset : list Issue) : list Issue :=
  List.filter (λ i, negb (sql_where q i)) queryset.

(** [Count("issues", filter=q)] over the issues joined to one diff. *)
Definition Count (q : option Q) (issues : list Issue) : nat :=
  match q with
  | None => length issues
  | Some q => length (qs_filter q issues)
  end.

(** The annotations of [DiffViewSet.get_queryset], for one diff. *)
Record DiffCounts := mkDiffCounts {
  nb_issues : nat;
  nb_errors : nat;
  nb_warnings : nat;
  nb_issues_publishable : nat;
}.

Definition diff_publishable_filter : Q :=
  Q_or (Q_in_patch true) (Q_level LEVEL_ERROR).

Definition annotate (issues : list Issue) : DiffCounts :=
  {| nb_issues := Count None issues;
     nb_errors := Count (Some (Q_level "error")) issues;
     nb_warnings := Count (Some (Q_level "warning")) issues;
     nb_issues_publishable := Count (Some diff_publishable_filter) issues |}.

(** Python's [str.lower], on ASCII letters. *)
Definition lower_ascii (c : Ascii.ascii) : Ascii.ascii :=
  let n := Ascii.N_of_ascii c in
  if ((65 <=? n) && (n <=? 90))%N then Ascii.ascii_of_N (n + 32) else c.

Fixpoint lower (s : string) : string :=
  match s with
  | EmptyString => EmptyString
  | String c s => String (lower_ascii c) (lower s)
  end.

Inductive ApiError :=
| APIException (detail : string).

(** The keyword arguments that the URL pattern
    [check/<repository>/<analyzer>/<check>/] always provides. *)
Record Kwargs := mkKwargs {
  kw_repository : string;
  kw_analyzer : string;
  kw_check : string;
}.

(** [order_by("-created")]. *)
Definition newest_first (a b : Issue) : Prop := created b ≤ created a.

#[global] Instance newest_first_dec : RelDecision newest_first.
Proof. intros a b. unfold newest_first. apply _. Defined.

(** [IssueCheckDetails.get_queryset], on the issue table. [strptime]
    parses the [since] parameter to a date, dates being day numbers. *)
Definition get_queryset (strptime : string → option Z)
    (kwargs : Kwargs) (query_params : gmap string string) (issues : list Issue)
    : ApiError + list Issue :=
  let repo := kw_repository kwargs in
  let queryset :=
    merge_sort newest_first
      (List.filter (λ i, bool_decide (analyzer_check i = kw_check kwargs))
        (List.filter (λ i, bool_decide (analyzer i = kw_analyzer kwargs))
          (i ← issues; slug ← head_repositories i;
           if bool_decide (slug = repo) then [i] else []))) in
  (* Display only publishable issues by default *)
  let publishable := lower (default "true" (query_params !! "publishable")) in
  let _filter := Q_or (Q_in_patch true) (Q_level LEVEL_ERROR) in
  match
    (if bool_decide (publishable = "true") then inr (qs_filter _filter queryset)
     else if bool_decide (publishable = "false") then inr (qs_exclude _filter queryset)
     else if bool_decide (publishable ≠ "all")
          then inl (APIException "publishable can only be true, false or all")
          else inr queryset)
  with
  | inl e => inl e
  | inr queryset =>
      (* Filter issues by date *)
      match query_params !! "since" with
      | None => inr (remove_dups queryset)
      | Some since =>
          match strptime since with
          | None => inl (APIException "invalid since date - should be YYYY-MM-DD")
          | Some since =>
              inr (remove_dups (List.filter (λ i, bool_decide (since ≤ created i)) queryset))
          end
      end
  end.

(** The claim's wording: in-patch, or of level "error". *)
Definition publishable (i : Issue) : Prop :=
  in_patch i = Some true ∨ level i = "error".

#[global] Instance publishable_dec i : Decision (publishable i).
Proof. unfold publishable. apply _. Defined.

End Api.

(** ** The listing of diffs, [DiffViewSet.get_queryset] *)

Module DiffViews.

(** The columns of a revision that the view reads; a foreign key to a
    repository that is null gives a null slug. *)
Record Revision := mkRevision {
  base_repository : option string;
  head_repository : option string;
  phabricator_id : option Z;
  bugzilla_id : option Z;
  title : option string;
}.

(** A diff with its revision, the slug of its own repository, its creation
    day and the issues joined to it. *)
Record Diff := mkDiff {
  id : Z;
  created : Z;
  revision : Revision;
  repository : option string;
  issues : list Api.Issue;
}.

(** [column = v] in SQL: NULL when the column is. *)
Definition sql_eq {A} `{EqDecision A} (column : option A) (v : A) : option bool :=
  (λ c, bool_decide (c = v)) <$> column.

(** A row passes WHERE when the condition is true. *)
Definition sql_true (c : option bool) : bool :=
  match c with
  | Some true => true
  | _ => false
  end.

(** [Q(revision__base_repository__slug=repository)
     | Q(revision__head_repository__slug=repository)
     | Q(repository__slug=repository)]. *)
Definition repository_filter (repository : string) (d : Diff) : option bool :=
  Api.sql_or
    (Api.sql_or (sql_eq (base_repository (revision d)) repository)
                (sql_eq (head_repository (revision d)) repository))
    (sql_eq (DiffViews.repository d) repository).

(** [search_query]; [icontains_int] and [icontains] are the database's
    case-insensitive containment on a number and on a text. *)
Definition search_query (icontains_int : Z → string → bool)
    (icontains : string → string → bool) (query : string) (d : Diff) : option bool :=
  Api.sql_or
    (Api.sql_or
      (Api.sql_or (Some (icontains_int (id d) query))
                  ((λ n, icontains_int n query) <$> phabricator_id (revision d)))
      ((λ n, icontains_int n query) <$> bugzilla_id (revision d)))
    ((λ t, icontains t query) <$> title (revision d)).

(** [order_by("-id")], on annotated rows. *)
Definition highest_id_first (a b : Diff * Api.DiffCounts) : Prop := id b.1 ≤ id a.1.

#[global] Instance highest_id_first_dec : RelDecision highest_id_first.
Proof. intros a b. unfold highest_id_first. apply _. Defined.

#[global] Instance highest_id_first_total : Total highest_id_first.
Proof. intros a b. unfold highest_id_first. lia. Qed.

#[global] Instance highest_id_first_transitive : Transitive highest_id_first.
Proof. intros a b c. unfold highest_id_first. lia. Qed.

(** [DiffViewSet.get_queryset]: each diff comes with its annotations.
    [today] is [date.today()] as a day number. *)
Definition get_queryset (icontains_int : Z → string → bool)
    (icontains : string → string → bool) (today : Z)
    (query_params : gmap string string) (table : list Diff)
    : list (Diff * Api.DiffCounts) :=
  let diffs :=
    merge_sort highest_id_first
      ((λ d, (d, Api.annotate (issues d))) <$>
         (* Because of the perf. hit filter issues that are not older than today - 3 months. *)
         List.filter (λ d, bool_decide (today - 90 ≤ created d)) table) in
  (* Filter by repository *)
  let diffs :=
    match query_params !! "repository" with
    | Some repository => List.filter (λ dc, sql_true (repository_filter repository dc.1)) diffs
    | None => diffs
    end in
  (* Filter by text search query *)
  let diffs :=
    match query_params !! "search" with
    | Some query =>
        List.filter (λ dc, sql_true (search_query icontains_int icontains query dc.1)) diffs
    | None => diffs
    end in
  (* Filter by issues types *)
  let issues := query_params !! "issues" in
  if bool_decide (issues = Some "any")
  then List.filter (λ dc, bool_decide (0 < Api.nb_issues dc.2)%nat) diffs
  else if bool_decide (issues = Some "publishable")
  then List.filter (λ dc, bool_decide (0 < Api.nb_issues_publishable dc.2)%nat) diffs
  else if bool_decide (issues = Some "no")
  then List.filter (λ dc, bool_decide (Api.nb_issues dc.2 = 0%nat)) diffs
  else diffs.

End DiffViews.

(** ** The issues of a repository, [IssueList.get_queryset] *)

Module IssueListView.

Record Repository := mkRepository {
  repo_id : Z;
  slug : string;
}.

(** A revision: its head repository and head changeset (both nullable) and
    its creation time, in seconds. *)
Record Revision := mkRevision {
  revision_id : Z;
  head_repository : option Z;
  head_changeset : option string;
  created : Z;
}.

(** An issue with the revisions it is linked to. *)
Record Issue := mkIssue {
  issue_id : Z;
  path : string;
  issue_created : Z;
  revisions : list Revision;
}.

#[global] Instance Repository_eq_dec : EqDecision Repository.
Proof. solve_decision. Defined.
#[global] Instance Revision_eq_dec : EqDecision Revision.
Proof. solve_decision. Defined.
#[global] Instance issue_list_issue_eq_dec : EqDecision Issue.
Proof. solve_decision. Defined.

(** What leaves [get_queryset] other than its result. [UnboundLocalError]
    is what Python raises when a local name is read before any assignment
    to it was executed. *)
Inductive exn :=
| ValidationError (errors : gmap string (list string))
| UnboundLocalError (name : string)
| MultipleObjectsReturned.

(** [errors[key].append(msg)] on a [defaultdict(list)]. *)
Definition append_error (key msg : string) (errors : gmap string (list string))
    : gmap string (list string) :=
  <[key := default [] (errors !! key) ++ [msg]]> errors.

(** [Repository.objects.get(slug=repo_slug)]. *)
Inductive GetResult :=
| Found (r : Repository)
| DoesNotExist
| MultipleReturned.

Definition objects_get (repositories : list Repository) (repo_slug : string) : GetResult :=
  match List.filter (λ r, bool_decide (slug r = repo_slug)) repositories with
  | [] => DoesNotExist
  | [r] => Found r
  | _ => MultipleReturned
  end.

(** The value of a query parameter when it is set and not empty, as the
    tests [if x := query_params.get(...)] and [if x and ...] read it. *)
Definition truthy (s : option string) : option string :=
  match s with
  | Some s => if bool_decide (s = "") then None else Some s
  | None => None
  end.

(** [revisions__head_repository=repo], [revisions__head_changeset=c] and
    [revisions=r]: some linked revision satisfies it. *)
Definition in_repository (repo : Repository) (i : Issue) : bool :=
  existsb (λ r, bool_decide (head_repository r = Some (repo_id repo))) (revisions i).

Definition has_changeset (c : string) (i : Issue) : bool :=
  existsb (λ r, bool_decide (head_changeset r = Some c)) (revisions i).

Definition linked_to (rev : Revision) (i : Issue) : bool :=
  existsb (λ r, bool_decide (revision_id r = revision_id rev)) (revisions i).

(** [order_by("created")], on revisions and on issues. *)
Definition revision_created_le (a b : Revision) : Prop := created a ≤ created b.

#[global] Instance revision_created_le_dec : RelDecision revision_created_le.
Proof. intros a b. unfold revision_created_le. apply _. Defined.

Definition issue_created_le (a b : Issue) : Prop := issue_created a ≤ issue_created b.

#[global] Instance issue_created_le_dec : RelDecision issue_created_le.
Proof. intros a b. unfold issue_created_le. apply _. Defined.

#[global] Instance issue_created_le_total : Total issue_created_le.
Proof. intros a b. unfold issue_created_le. lia. Qed.

#[global] Instance issue_created_le_transitive : Transitive issue_created_le.
Proof. intros a b c. unfold issue_created_le. lia. Qed.

(** [timedelta(days=n)], in seconds. *)
Definition days (n : Z) : Z := n * 86400.

(** The revision matching a date: the last one created in the repository
    in the two days before [date]. *)
Definition revision_of_date (repo : Repository) (date : Z) (revisions_table : list Revision)
    : option Revision :=
  last (merge_sort revision_created_le
          (List.filter
             (λ r, bool_decide (head_repository r = Some (repo_id repo)) &&
                   bool_decide (date - days 2 ≤ created r) &&
                   bool_decide (created r < date))
             revisions_table)).

(** [IssueList.get_queryset]. [strptime] parses a date to its midnight;
    [repo] is [None] while the local name [repo] is unbound. *)
Definition get_queryset (strptime : string → option Z) (repo_slug : string)
    (query_params : gmap string string) (repositories : list Repository)
    (revisions_table : list Revision) (issues : list Issue) : exn + list Issue :=
  let qs := issues in
  let errors : gmap string (list string) := ∅ in
  match objects_get repositories repo_slug with
  | MultipleReturned => inl MultipleObjectsReturned
  | got =>
      let repo := match got with Found r => Some r | _ => None end in
      let errors :=
        match repo with
        | None =>
            append_error "repo_slug"
              "invalid repo_slug path argument - No repository match this slug" errors
        | Some _ => errors
        end in
      let qs :=
        match repo with
        | Some r => List.filter (in_repository r) qs
        | None => qs
        end in
      (* Always filter by path when the parameter is set *)
      let qs :=
        match truthy (query_params !! "path") with
        | Some p => List.filter (λ i, bool_decide (path i = p)) qs
        | None => qs
        end in
      match
        (match truthy (query_params !! "date") with
         | None => inr (None, errors)
         | Some date =>
             match strptime date with
             | None => inr (None, append_error "date" "invalid date - should be YYYY-MM-DD" errors)
             | Some date =>
                 let date := date + days 1 in
                 (* Look for a revision matching this date, going back to 2 days maximum *)
                 match repo with
                 | None => inl (UnboundLocalError "repo")
                 | Some r => inr (revision_of_date r date revisions_table, errors)
                 end
             end
         end)
      with
      | inl e => inl e
      | inr (date_revision, errors) =>
          let rev_changeset := query_params !! "revision_changeset" in
          let errors :=
            match rev_changeset with
            | Some c =>
                if bool_decide (String.length c ≠ 40%nat)
                then append_error "revision_changeset"
                       "invalid revision_changeset - should be the mercurial hash on the head repository"
                       errors
                else errors
            | None => errors
            end in
          if bool_decide (errors ≠ ∅) then inl (ValidationError errors)
          else
            (* Only use the revision filter in case some issues are found *)
            let qs :=
              match truthy rev_changeset, date_revision with
              | Some c, _ =>
                  match List.filter (has_changeset c) qs, date_revision with
                  | (_ :: _) as found, _ => found
                  | [], None => []
                  (* Defaults to filtering by the revision closest to the given date *)
                  | [], Some rev => List.filter (linked_to rev) qs
                  end
              | None, Some rev => List.filter (linked_to rev) qs
              | None, None => qs
              end in
            inr (remove_dups (merge_sort issue_created_le qs))
      end
  end.

End IssueListView.

(** The orders that the views sort by are total preorders. *)
#[global] Instance newest_first_total : Total Api.newest_first.
Proof. intros a b. unfold Api.newest_first. lia. Qed.

#[global] Instance newest_first_transitive : Transitive Api.newest_first.
Proof. intros a b c. unfold Api.newest_first. lia. Qed.

#[global] Instance revision_created_le_total : Total IssueListView.revision_created_le.
Proof. intros a b. unfold IssueListView.revision_created_le. lia. Qed.

#[global] Instance revision_created_le_transitive :
  Transitive IssueListView.revision_created_le.
Proof. intros a b c. unfold IssueListView.revision_created_le. lia. Qed.

Import Models Classifier Effects LoadInPatch.

(** ** Fixtures and notions used in the statements *)

(** The parsed patch of the specification's example. *)
Definition patch_a_c : gmap string (list Z) := {[ "a.c" := [10; 11; 12; 20] ]}.

(** A link, not yet classified, to an issue at the given place. *)
Definition link_at (p : string) (ln : option Z) (n : Z) : IssueLink :=
  mkIssueLink 1 (Some 7) 3 (mkIssue p ln n) None.

(** The lines [line, line + nb_lines) of an issue meet the changed lines. *)
Definition overlaps (ln n : Z) (changed : list Z) : Prop :=
  ∃ x, ln ≤ x < ln + n ∧ x ∈ changed.

(** An object store with one link in it. *)
Definition heap_one : gmap positive IssueLink := {[ 1%positive := link_at "a.c" (Some 8) 3 ]}.

(** A repository, two diffs of it, and what the parser makes of a patch
    that touches lines 10 and 11 of "a.c" and adds lines 12 and 20. *)
Definition repo0 : Repository := mkRepository "https://hg.example".
Definition diff_abc : Diff := mkDiff 1 repo0 "abc".
Definition diff_def : Diff := mkDiff 2 repo0 "def".
Definition changes_a_c : gmap string FileChanges :=
  {[ "a.c" := mkFileChanges (Some [10; 11]) (Some [12; 20]) ]}.

(** A service that answers every request (the body echoes the URL), with
    the metadata of an ordinary commit. *)
Definition env_ok : Env :=
  mkEnv (λ u, inr (mkResponse 200 u))
        (λ _, inr (mkMeta "Bug 1 - fix the parser" ["P1"; "P2"]))
        (λ _, inr changes_a_c)
        (λ _, None).

(** The same service, with the metadata of the specification's example. *)
Definition meta_try : Meta := mkMeta "try_task_config for bug X" ["P1"; "P2"].
Definition env_try : Env :=
  mkEnv (λ u, inr (mkResponse 200 u)) (λ _, inr meta_try) (λ _, inr changes_a_c) (λ _, None).

(** The same service, unreachable for the metadata of [diff_abc]. *)
Definition env_abc_down : Env :=
  mkEnv (λ u, if bool_decide (u = "https://hg.example/json-rev/abc")
              then inl ConnectionError else inr (mkResponse 200 u))
        (λ _, inr (mkMeta "Bug 1 - fix the parser" ["P1"; "P2"]))
        (λ _, inr changes_a_c)
        (λ _, None).

(** The same service, with patches in which the parser finds no file. *)
Definition env_empty_patch : Env :=
  mkEnv (λ u, inr (mkResponse 200 u))
        (λ _, inr (mkMeta "Bug 1 - fix the parser" ["P1"; "P2"]))
        (λ _, inr ∅)
        (λ _, None).

(** Two diffs with unclassified links. *)
Definition db_two : DB :=
  mkDB {[ 1 := mkDiffRow repo0 "abc"; 2 := mkDiffRow repo0 "def" ]}
       {[ 10 := mkIssueLinkRow (Some 1) 5 (mkIssue "a.c" (Some 8) 3) None;
          20 := mkIssueLinkRow (Some 2) 5 (mkIssue "a.c" (Some 13) 5) None;
          21 := mkIssueLinkRow (Some 2) 5 (mkIssue "b.c" None 1) (Some true) ]}.

(** One diff, for which no issue was reported. *)
Definition db_bare : DB := mkDB {[ 1 := mkDiffRow repo0 "abc" ]} ∅.

(** One diff with an unclassified link, one diff without any issue. *)
Definition db_linked_and_bare : DB :=
  mkDB {[ 1 := mkDiffRow repo0 "abc"; 2 := mkDiffRow repo0 "def" ]}
       {[ 10 := mkIssueLinkRow (Some 1) 5 (mkIssue "a.c" (Some 8) 3) None ]}.

Definition world_of (d : DB) : World := mkWorld d [] [].

(** Issues as the API sees them. *)
Definition issue_in_patch : Api.Issue :=
  Api.mkIssue 1 "warning" (Some true) "clang-tidy" "modernize-use-auto" 100 ["mozilla-central"].
Definition issue_error : Api.Issue :=
  Api.mkIssue 2 "error" None "clang-tidy" "modernize-use-auto" 101 ["mozilla-central"].
Definition issue_outside : Api.Issue :=
  Api.mkIssue 3 "warning" (Some false) "clang-tidy" "modernize-use-auto" 102 ["mozilla-central"].
Definition issue_unknown : Api.Issue :=
  Api.mkIssue 4 "warning" None "clang-tidy" "modernize-use-auto" 103 ["mozilla-central"].

(** A computation that leaves the database as it found it. *)
Definition keeps_db {A} (m : M A) : Prop := ∀ w, db (m w).2 = db w.

(** A computation whose value or exception does not depend on the world it
    starts from. *)
Definition world_blind {A} (m : M A) : Prop := ∀ w w', (m w).1 = (m w').1.

(** A computation that only appends to the log and to the requested URLs. *)
Definition appends_only {A} (m : M A) : Prop :=
  ∀ w, log w `prefix_of` log (m w).2 ∧ requested w `prefix_of` requested (m w).2.

(** The links of diff [pk], classified against [lines]. *)
Definition classified_links (lines : gmap string (list Z)) (d : DB) (pk : Z) : list IssueLink :=
  (λ issue_link, detect_in_patch issue_link lines) <$> issue_links_all d pk.

(** Row [k] of the link table once diff [pk] has been classified against
    [lines] and written back. *)
Definition classified_row (lines : gmap string (list Z)) (pk k : Z) (r : IssueLinkRow) : IssueLinkRow :=
  if decide (row_diff_id r = Some pk)
  then row_set_in_patch (in_patch (detect_in_patch (load_link k r) lines)) r
  else r.

(** The world before anything happened; [load_hgmo_patch] answers the same
    from any world. *)
Definition empty_world : World := mkWorld (mkDB ∅ ∅) [] [].

(** How the work on one diff ends in database [d]: the exception that
    reaches the [except] clause, or the parsed lines its links were
    classified against and written with. *)
Definition diff_outcome (env : Env) (d : DB) (diff : Diff) : exn + gmap string (list Z) :=
  match (load_hgmo_patch env diff empty_world).1 with
  | inl e => inl e
  | inr lines =>
      match bulk_update_error env (classified_links lines d (diff_pk diff)) with
      | Some e => inl e
      | None => inr lines
      end
  end.

(** Row [k] after the work on one diff. *)
Definition settle (env : Env) (d : DB) (diff : Diff) (k : Z) (r : IssueLinkRow) : IssueLinkRow :=
  match diff_outcome env d diff with
  | inl _ => r
  | inr lines => classified_row lines (diff_pk diff) k r
  end.

(** Row [k] after the work on a list of diffs, each judged in database [d]. *)
Definition settle_all (env : Env) (d : DB) (diffs : list Diff) (k : Z) (r : IssueLinkRow) : IssueLinkRow :=
  foldl (λ r diff, settle env d diff k r) r diffs.

(** The first URL requested for a diff. *)
Definition json_rev_url (diff : Diff) : string :=
  url (repository diff) +:+ "/json-rev/" +:+ mercurial_hash diff.

(** The URL of the raw patch of revision [rev] in the diff's repository. *)
Definition raw_rev_url (diff : Diff) (rev : string) : string :=
  url (repository diff) +:+ "/raw-rev/" +:+ rev.

(** *** Further fixtures *)

(** A service that answers the metadata request with a server error. *)
Definition env_http_500 : Env :=
  mkEnv (λ u, inr (mkResponse 500 "Internal Server Error"))
        (λ _, inr (mkMeta "Bug 1 - fix the parser" ["P1"; "P2"]))
        (λ _, inr changes_a_c)
        (λ _, None).

(** A service whose metadata name a configuration commit without parents. *)
Definition env_no_parents : Env :=
  mkEnv (λ u, inr (mkResponse 200 u))
        (λ _, inr (mkMeta "try_task_config" []))
        (λ _, inr changes_a_c)
        (λ _, None).

(** A service that answers, with a database that refuses the batch. *)
Definition env_db_down : Env :=
  mkEnv (λ u, inr (mkResponse 200 u))
        (λ _, inr (mkMeta "Bug 1 - fix the parser" ["P1"; "P2"]))
        (λ _, inr changes_a_c)
        (λ _, Some DatabaseError).

(** Two diffs whose links are all classified. *)
Definition db_classified : DB :=
  mkDB {[ 1 := mkDiffRow repo0 "abc"; 2 := mkDiffRow repo0 "def" ]}
       {[ 10 := mkIssueLinkRow (Some 1) 5 (mkIssue "a.c" (Some 8) 3) (Some true);
          20 := mkIssueLinkRow (Some 2) 5 (mkIssue "a.c" (Some 13) 5) (Some false) ]}.

(** Diffs as the listing of diffs sees them. *)
Definition revision_mc : DiffViews.Revision :=
  DiffViews.mkRevision (Some "mozilla-central") (Some "try") (Some 1234) None (Some "Bug 1").
Definition listed_diff_with_error : DiffViews.Diff :=
  DiffViews.mkDiff 7 100 revision_mc (Some "try") [issue_error; issue_outside].
Definition listed_diff_clean : DiffViews.Diff :=
  DiffViews.mkDiff 8 101 revision_mc (Some "try") [].
Definition listed_diff_old : DiffViews.Diff :=
  DiffViews.mkDiff 9 5 revision_mc (Some "try") [issue_in_patch].

(** A repository with two revisions, and issues linked to them. *)
Definition repo_mc : IssueListView.Repository := IssueListView.mkRepository 1 "mozilla-central".
Definition rev_monday : IssueListView.Revision :=
  IssueListView.mkRevision 11 (Some 1) (Some "0123456789012345678901234567890123456789") 90000.
Definition rev_tuesday : IssueListView.Revision :=
  IssueListView.mkRevision 12 (Some 1) (Some "abcdefabcdefabcdefabcdefabcdefabcdefabcd") 180000.
Definition listed_issue_monday : IssueListView.Issue :=
  IssueListView.mkIssue 1 "a.c" 90001 [rev_monday].
Definition listed_issue_tuesday : IssueListView.Issue :=
  IssueListView.mkIssue 2 "b.c" 180001 [rev_tuesday].

(** A parser of dates that knows two days. *)
Definition strptime_two_days (s : string) : option Z :=
  if bool_decide (s = "1970-01-02") then Some 86400
  else if bool_decide (s = "1970-01-03") then Some 172800
  else None.

(** The complaints about an unknown slug and a changeset too short. *)
Definition errors_slug_and_changeset : gmap string (list string) :=
  IssueListView.append_error "revision_changeset"
    "invalid revision_changeset - should be the mercurial hash on the head repository"
    (IssueListView.append_error "repo_slug"
       "invalid repo_slug path argument - No repository match this slug" ∅).

(** ** The classifier *)

Section classifier.
Implicit Types (issue_link : IssueLink) (lines : gmap string (list Z)).

Lemma isdisjoint_false (s : gset Z) (other : list Z) :
  isdisjoint s other = false ↔ ∃ x, x ∈ s ∧ x ∈ other.
Proof.
  unfold isdisjoint. induction other as [|y other IH]; simpl.
  - split; [discriminate|]. intros (x & _ & Hx). by apply elem_of_nil in Hx.
  - rewrite andb_false_iff, IH, bool_decide_eq_false. split.
    + intros [Hy | (x & Hs & Ho)].
      * exists y. split; [by apply dec_stable | left].
      * exists x. split; [done | by right].
    + intros (x & Hs & Ho). apply elem_of_cons in Ho as [-> | Ho].
      * left. by intros ?.
      * right. by exists x.
Qed.

Lemma elem_of_range (x start stop : Z) : x ∈ range start stop ↔ start ≤ x < stop.
Proof. unfold range. rewrite elem_of_seqZ. lia. Qed.

Lemma chunk_meets_iff (ln n : Z) (changed : list Z) :
  negb (isdisjoint (list_to_set (range ln (ln + n))) changed) = true ↔ overlaps ln n changed.
Proof.
  rewrite negb_true_iff, isdisjoint_false. unfold overlaps.
  split; intros (x & Hx & Hc); exists x; split; try done.
  - by apply elem_of_list_to_set, elem_of_range in Hx.
  - by apply elem_of_list_to_set, elem_of_range.
Qed.

Lemma detect_in_patch_absent issue_link lines :
  lines !! path (issue issue_link) = None →
  detect_in_patch issue_link lines = set_in_patch issue_link (Some false).
Proof. unfold detect_in_patch. by intros ->. Qed.

Lemma detect_in_patch_whole_file issue_link lines changed :
  lines !! path (issue issue_link) = Some changed →
  line (issue issue_link) = None →
  detect_in_patch issue_link lines = set_in_patch issue_link (Some true).
Proof. unfold detect_in_patch. by intros -> ->. Qed.

Lemma detect_in_patch_lines issue_link lines changed ln :
  lines !! path (issue issue_link) = Some changed →
  line (issue issue_link) = Some ln →
  detect_in_patch issue_link lines =
    set_in_patch issue_link
      (Some (negb (isdisjoint (list_to_set (range ln (ln + nb_lines (issue issue_link)))) changed))).
Proof. unfold detect_in_patch. by intros -> ->. Qed.

(** Whatever the branch, the link comes back with only [in_patch] assigned,
    and assigned a boolean. *)
Lemma detect_in_patch_assigns issue_link lines :
  ∃ b, detect_in_patch issue_link lines = set_in_patch issue_link (Some b).
Proof.
  unfold detect_in_patch.
  destruct (lines !! path (issue issue_link)); [destruct (line (issue issue_link))|]; eauto.
Qed.

(** [in_patch] is not read: classifying a link again gives the same link. *)
Lemma detect_in_patch_set_in_patch issue_link lines b :
  detect_in_patch (set_in_patch issue_link b) lines = detect_in_patch issue_link lines.
Proof. reflexivity. Qed.

End classifier.

(** C1. The classifier follows the three rules in order: a path that is not
    a key of the parsed patch gives false; otherwise a null line gives true;
    otherwise the result is true exactly when some line of
    [line, line + nb_lines) is among the file's changed lines. On the patch
    {"a.c": {10,11,12,20}}: line 8 with 3 lines gives true, line 13 with 5
    lines gives false, and any issue of "b.c" gives false. *)
Theorem detect_in_patch_priority_rules :
  (∀ (issue_link : IssueLink) (lines : gmap string (list Z)),
     let i := issue issue_link in
     let result := in_patch (detect_in_patch issue_link lines) in
     (lines !! path i = None → result = Some false) ∧
     (∀ changed, lines !! path i = Some changed → line i = None → result = Some true) ∧
     (∀ changed ln, lines !! path i = Some changed → line i = Some ln →
        (result = Some true ↔ overlaps ln (nb_lines i) changed) ∧
        (result = Some false ↔ ¬ overlaps ln (nb_lines i) changed))) ∧
  in_patch (detect_in_patch (link_at "a.c" (Some 8) 3) patch_a_c) = Some true ∧
  in_patch (detect_in_patch (link_at "a.c" (Some 13) 5) patch_a_c) = Some false ∧
  (∀ ln n, in_patch (detect_in_patch (link_at "b.c" ln n) patch_a_c) = Some false).
Proof.
  split; [|split; [|split]].
  - intros issue_link lines i result. subst i result. split; [|split].
    + intros Habsent. by rewrite detect_in_patch_absent.
    + intros changed Hfile Hline. by rewrite (detect_in_patch_whole_file _ _ _ Hfile Hline).
    + intros changed ln Hfile Hline.
      rewrite (detect_in_patch_lines _ _ _ _ Hfile Hline). simpl.
      pose proof (chunk_meets_iff ln (nb_lines (issue issue_link)) changed) as Hmeets.
      destruct (negb _); intuition congruence.
  - by vm_compute.
  - by vm_compute.
  - intros ln n. by rewrite detect_in_patch_absent.
Qed.

Lemma detect_in_patch_priority_rules_witness :
  in_patch (detect_in_patch (link_at "a.c" None 0) patch_a_c) = Some true.
Proof.
  destruct detect_in_patch_priority_rules as [H _].
  destruct (H (link_at "a.c" None 0) patch_a_c) as (_ & Hfile & _).
  apply (Hfile [10; 11; 12; 20]); reflexivity.
Defined.

(** ** Laws of the command monad *)

Section monad_laws.
Context {A B : Type}.
Implicit Types (m : M A) (k : A → M B).

Lemma bind_inr m k w a w' : m w = (inr a, w') → bind m k w = k a w'.
Proof. unfold bind. by intros ->. Qed.

Lemma keeps_db_bind m k : keeps_db m → (∀ a, keeps_db (k a)) → keeps_db (bind m k).
Proof.
  intros Hm Hk w. unfold bind. specialize (Hm w).
  destruct (m w) as [[e|a] w1]; simpl in *; [done|]. by rewrite Hk.
Qed.

Lemma world_blind_bind m k :
  world_blind m → (∀ a, world_blind (k a)) → world_blind (bind m k).
Proof.
  intros Hm Hk w w'. unfold bind. specialize (Hm w w').
  destruct (m w) as [[e|a] w1], (m w') as [[e'|a'] w1']; simplify_eq/=; [done|].
  apply Hk.
Qed.

Lemma appends_only_bind m k :
  appends_only m → (∀ a, appends_only (k a)) → appends_only (bind m k).
Proof.
  intros Hm Hk w. unfold bind. specialize (Hm w).
  destruct (m w) as [[e|a] w1]; simpl in *; [done|].
  destruct Hm as [Hl Hr], (Hk a w1) as [Hl' Hr']. split; by etrans.
Qed.

End monad_laws.

Section primitives.
Context {A : Type}.

Lemma keeps_db_ret (a : A) : keeps_db (ret a).
Proof. done. Qed.
Lemma keeps_db_raise e : keeps_db (@raise A e).
Proof. done. Qed.
Lemma keeps_db_lift (r : exn + A) : keeps_db (lift r).
Proof. done. Qed.
Lemma keeps_db_logging_info r : keeps_db (logging_info r).
Proof. done. Qed.
Lemma keeps_db_http_get env u : keeps_db (http_get env u).
Proof. done. Qed.
Lemma keeps_db_raise_for_status resp : keeps_db (raise_for_status resp).
Proof. unfold raise_for_status. by case_bool_decide. Qed.
Lemma keeps_db_if (c : bool) (m1 m2 : M A) :
  keeps_db m1 → keeps_db m2 → keeps_db (if c then m1 else m2).
Proof. by destruct c. Qed.

Lemma world_blind_ret (a : A) : world_blind (ret a).
Proof. done. Qed.
Lemma world_blind_raise e : world_blind (@raise A e).
Proof. done. Qed.
Lemma world_blind_lift (r : exn + A) : world_blind (lift r).
Proof. done. Qed.
Lemma world_blind_logging_info r : world_blind (logging_info r).
Proof. done. Qed.
Lemma world_blind_http_get env u : world_blind (http_get env u).
Proof. done. Qed.
Lemma world_blind_raise_for_status resp : world_blind (raise_for_status resp).
Proof. unfold raise_for_status. by case_bool_decide. Qed.
Lemma world_blind_if (c : bool) (m1 m2 : M A) :
  world_blind m1 → world_blind m2 → world_blind (if c then m1 else m2).
Proof. by destruct c. Qed.

Lemma appends_only_ret (a : A) : appends_only (ret a).
Proof. done. Qed.
Lemma appends_only_raise e : appends_only (@raise A e).
Proof. done. Qed.
Lemma appends_only_lift (r : exn + A) : appends_only (lift r).
Proof. done. Qed.
Lemma appends_only_logging_info r : appends_only (logging_info r).
Proof. intros w. split; [by apply prefix_app_r | done]. Qed.
Lemma appends_only_http_get env u : appends_only (http_get env u).
Proof. intros w. split; [done | by apply prefix_app_r]. Qed.
Lemma appends_only_raise_for_status resp : appends_only (raise_for_status resp).
Proof. unfold raise_for_status. by case_bool_decide. Qed.
Lemma appends_only_if (c : bool) (m1 m2 : M A) :
  appends_only m1 → appends_only m2 → appends_only (if c then m1 else m2).
Proof. by destruct c. Qed.
Lemma appends_only_put_db d : appends_only (put_db d).
Proof. done. Qed.
Lemma appends_only_get_db : appends_only get_db.
Proof. done. Qed.

End primitives.

Create HintDb cmd discriminated.
#[local] Hint Resolve keeps_db_bind keeps_db_ret keeps_db_raise keeps_db_lift
  keeps_db_logging_info keeps_db_http_get keeps_db_raise_for_status keeps_db_if
  world_blind_bind world_blind_ret world_blind_raise world_blind_lift
  world_blind_logging_info world_blind_http_get world_blind_raise_for_status
  world_blind_if
  appends_only_bind appends_only_ret appends_only_raise appends_only_lift
  appends_only_logging_info appends_only_http_get appends_only_raise_for_status
  appends_only_if appends_only_put_db appends_only_get_db : cmd.

(** ** The fetcher and the per-diff worker *)

Section worker.
Context (env : Env).
Implicit Types (diff : Diff) (w : World).

(** Fetching and parsing never touch the database. *)
Lemma load_hgmo_patch_keeps_db diff : keeps_db (load_hgmo_patch env diff).
Proof.
  unfold load_hgmo_patch.
  repeat (apply keeps_db_bind; [|intro]); auto with cmd.
Qed.

(** What they return depends on the diff and on the outside world only. *)
Lemma load_hgmo_patch_world_blind diff : world_blind (load_hgmo_patch env diff).
Proof.
  unfold load_hgmo_patch.
  repeat (apply world_blind_bind; [|intro]); auto with cmd.
Qed.

Lemma load_hgmo_patch_appends_only diff : appends_only (load_hgmo_patch env diff).
Proof.
  unfold load_hgmo_patch.
  repeat (apply appends_only_bind; [|intro]); auto with cmd.
Qed.

(** The body of the worker, spelled out on the result of the fetch. *)
Lemma process_diff_body_unfold diff w :
  process_diff_body env diff w =
    match load_hgmo_patch env diff w with
    | (inl e, w1) => (inl e, w1)
    | (inr lines, w1) =>
        let objs := classified_links lines (db w1) (diff_pk diff) in
        let found := FoundInPatch (length (filter (λ i, in_patch i = Some true) objs)) (diff_pk diff) in
        match bulk_update_error env objs with
        | Some e => (inl e, mkWorld (db w1) (log w1 ++ [found]) (requested w1))
        | None =>
            (inr tt,
             mkWorld (mkDB (diff_table (db w1)) (bulk_update_rows objs (issue_link_table (db w1))))
               (log w1 ++ [found]) (requested w1))
        end
    end.
Proof.
  unfold process_diff_body, bind at 1.
  destruct (load_hgmo_patch env diff w) as [[e|lines] w1]; [done|].
  unfold get_db, bind, logging_info, bulk_update, classified_links. simpl.
  by destruct (bulk_update_error _ _).
Qed.

End worker.

(** ** The batched write *)

Section bulk_update.
Implicit Types (objs : list IssueLink) (t : gmap Z IssueLinkRow).

Lemma bulk_update_rows_notin objs t k :
  k ∉ id <$> objs → bulk_update_rows objs t !! k = t !! k.
Proof.
  induction objs as [|o objs IH]; simpl; [done|].
  rewrite not_elem_of_cons. intros [Hne Hnotin].
  rewrite lookup_alter_ne by done. by apply IH.
Qed.

Lemma bulk_update_rows_in objs t o :
  NoDup (id <$> objs) → o ∈ objs →
  bulk_update_rows objs t !! id o = row_set_in_patch (in_patch o) <$> t !! id o.
Proof.
  induction objs as [|o' objs IH]; simpl; [by intros _ ?%elem_of_nil|].
  rewrite NoDup_cons. intros [Hnotin Hnodup] [->|Hin]%elem_of_cons.
  - rewrite lookup_alter_eq. by rewrite bulk_update_rows_notin.
  - rewrite lookup_alter_ne; [by apply IH|].
    intros Heq. apply Hnotin. rewrite Heq. by apply list_elem_of_fmap_2.
Qed.

Lemma elem_of_issue_links_all d pk l :
  l ∈ issue_links_all d pk ↔
  ∃ k r, l = load_link k r ∧ issue_link_table d !! k = Some r ∧ row_diff_id r = Some pk.
Proof.
  unfold issue_links_all. rewrite list_elem_of_fmap. split.
  - intros ([k r] & -> & Hin). apply elem_of_map_to_list in Hin.
    apply map_lookup_filter_Some in Hin as [Hk Hr]. by exists k, r.
  - intros (k & r & -> & Hk & Hr). exists (k, r). split; [done|].
    apply elem_of_map_to_list, map_lookup_filter_Some. done.
Qed.

Lemma issue_links_all_ids d pk :
  id <$> issue_links_all d pk =
  (map_to_list (filter (λ kr, row_diff_id kr.2 = Some pk) (issue_link_table d))).*1.
Proof. unfold issue_links_all. rewrite <- list_fmap_compose. by apply list_fmap_ext. Qed.

Lemma classified_links_ids lines d pk :
  id <$> classified_links lines d pk = id <$> issue_links_all d pk.
Proof.
  unfold classified_links. rewrite <- list_fmap_compose. apply list_fmap_ext.
  intros _ l _. simpl. by destruct (detect_in_patch_assigns l lines) as [b ->].
Qed.

(** The table after one diff's batch: its rows carry the classifier's
    answer, every other row is as before. *)
Lemma bulk_update_rows_classified lines d pk k :
  bulk_update_rows (classified_links lines d pk) (issue_link_table d) !! k =
  classified_row lines pk k <$> issue_link_table d !! k.
Proof.
  unfold classified_row.
  destruct (issue_link_table d !! k) as [r|] eqn:Hk; simpl.
  - destruct (decide (row_diff_id r = Some pk)) as [Hr|Hr].
    + assert (Hin : detect_in_patch (load_link k r) lines ∈ classified_links lines d pk).
      { unfold classified_links.
        apply (list_elem_of_fmap_2 (λ l, detect_in_patch l lines)).
        apply elem_of_issue_links_all. by exists k, r. }
      pose proof (bulk_update_rows_in _ (issue_link_table d) _
        ltac:(rewrite classified_links_ids, issue_links_all_ids; apply NoDup_fst_map_to_list) Hin) as Hup.
      destruct (detect_in_patch_assigns (load_link k r) lines) as [b Hb].
      rewrite Hb in Hup |- *. simpl in Hup. by rewrite Hup, Hk.
    + rewrite bulk_update_rows_notin; [done|].
      rewrite classified_links_ids. intros (l & -> & Hl)%list_elem_of_fmap.
      apply elem_of_issue_links_all in Hl as (k' & r' & -> & Hk' & Hr'). simpl in *.
      congruence.
  - rewrite bulk_update_rows_notin; [done|].
    rewrite classified_links_ids. intros (l & -> & Hl)%list_elem_of_fmap.
    apply elem_of_issue_links_all in Hl as (k' & r' & -> & Hk' & Hr'). simpl in *.
    congruence.
Qed.

End bulk_update.

(** Once the metadata is in and [patch_rev] is assigned, the rest of
    [load_hgmo_patch] is one request and one parse. *)
Lemma load_hgmo_patch_resolved env diff w resp meta rev :
  requests_get env (json_rev_url diff) = inr resp →
  ¬ (400 ≤ status_code resp < 600) →
  json env (text resp) = inr meta →
  patch_rev diff meta = inr rev →
  load_hgmo_patch env diff w =
    let w2 :=
      mkWorld (db w)
        (log w ++ [Downloading (json_rev_url diff); Downloading (raw_rev_url diff rev)])
        (requested w ++ [json_rev_url diff; raw_rev_url diff rev]) in
    match requests_get env (raw_rev_url diff rev) with
    | inl e => (inl e, w2)
    | inr resp2 =>
        if bool_decide (400 ≤ status_code resp2 < 600)
        then (inl (HTTPError (status_code resp2)), w2)
        else match parse_patch env (text resp2) with
             | inl e => (inl e, w2)
             | inr patch =>
                 if bool_decide (patch = ∅)
                 then (inl (AssertionError "Empty patch"), w2)
                 else (inr ((λ d, default [] (touched d) ++ default [] (added d)) <$> patch), w2)
             end
    end.
Proof.
  intros Hget Hok Hjson Hrev.
  unfold load_hgmo_patch. fold (json_rev_url diff).
  unfold bind, logging_info, http_get, lift, raise_for_status. simpl.
  rewrite Hget. rewrite (bool_decide_eq_false_2 _ Hok). simpl.
  rewrite Hjson, Hrev. fold (raw_rev_url diff rev). simpl.
  rewrite <- !(assoc_L (++)). simpl.
  destruct (requests_get env (raw_rev_url diff rev)) as [e|resp2]; [done|].
  case_bool_decide; [done|]. simpl.
  destruct (parse_patch env (text resp2)) as [e|patch]; [done|].
  by case_bool_decide.
Qed.

(** ** One diff *)

Section process_diff.
Context (env : Env).
Implicit Types (diff : Diff) (w : World).

Lemma process_diff_body_outcome diff w :
  (process_diff_body env diff w).1 =
    match diff_outcome env (db w) diff with inl e => inl e | inr _ => inr tt end.
Proof.
  rewrite process_diff_body_unfold. unfold diff_outcome.
  rewrite (load_hgmo_patch_world_blind env diff empty_world w).
  pose proof (load_hgmo_patch_keeps_db env diff w) as Hdb.
  destruct (load_hgmo_patch env diff w) as [[e|lines] w1]; simpl in *; [done|].
  rewrite Hdb. by destruct (bulk_update_error _ _).
Qed.

Lemma process_diff_body_db diff w :
  db (process_diff_body env diff w).2 =
    match diff_outcome env (db w) diff with
    | inl _ => db w
    | inr lines =>
        mkDB (diff_table (db w))
          (bulk_update_rows (classified_links lines (db w) (diff_pk diff)) (issue_link_table (db w)))
    end.
Proof.
  rewrite process_diff_body_unfold. unfold diff_outcome.
  rewrite (load_hgmo_patch_world_blind env diff empty_world w).
  pose proof (load_hgmo_patch_keeps_db env diff w) as Hdb.
  destruct (load_hgmo_patch env diff w) as [[e|lines] w1]; simpl in *; [done|].
  rewrite Hdb. by destruct (bulk_update_error _ _).
Qed.

Lemma process_diff_body_appends_only diff : appends_only (process_diff_body env diff).
Proof.
  intros w. rewrite process_diff_body_unfold.
  destruct (load_hgmo_patch_appends_only env diff w) as [Hl Hr].
  destruct (load_hgmo_patch env diff w) as [[e|lines] w1]; simpl in *; [done|].
  destruct (bulk_update_error _ _); simpl; (split; [|done]);
    (etrans; [apply Hl | by apply prefix_app_r]).
Qed.

(** The worker never raises: the [except] clause only logs. *)
Lemma process_diff_returns diff w : (process_diff env diff w).1 = inr tt.
Proof.
  unfold process_diff, try_except.
  by destruct (process_diff_body env diff w) as [[e|[]] w1].
Qed.

Lemma process_diff_db diff w :
  db (process_diff env diff w).2 = db (process_diff_body env diff w).2.
Proof.
  unfold process_diff, try_except.
  by destruct (process_diff_body env diff w) as [[e|[]] w1].
Qed.

Lemma process_diff_appends_only diff : appends_only (process_diff env diff).
Proof.
  intros w. unfold process_diff, try_except.
  destruct (process_diff_body_appends_only diff w) as [Hl Hr].
  destruct (process_diff_body env diff w) as [[e|[]] w1]; simpl in *; [|done].
  split; [|done]. etrans; [apply Hl | by apply prefix_app_r].
Qed.

(** A failure is logged with the diff's identifier. *)
Lemma process_diff_logs_failure diff w e :
  (process_diff_body env diff w).1 = inl e →
  FailureOnDiff (diff_pk diff) e ∈ log (process_diff env diff w).2.
Proof.
  unfold process_diff, try_except.
  destruct (process_diff_body env diff w) as [[e'|[]] w1]; simpl; [|done].
  intros [= ->]. apply elem_of_app. right. by left.
Qed.

(** Every diff that is worked on has its metadata requested. *)
Lemma process_diff_requests diff w :
  json_rev_url diff ∈ requested (process_diff env diff w).2.
Proof.
  assert (Hload : json_rev_url diff ∈ requested (load_hgmo_patch env diff w).2).
  { unfold load_hgmo_patch. fold (json_rev_url diff).
    erewrite bind_inr by reflexivity. unfold bind at 1, http_get at 1.
    destruct (requests_get env (json_rev_url diff)) as [e|resp]; simpl.
    - apply elem_of_app. right. by left.
    - match goal with |- _ ∈ requested (?k ?w1).2 =>
        assert (Hk : appends_only k); [|destruct (Hk w1) as [_ Hr]] end.
      { repeat (apply appends_only_bind; [|intro]); auto with cmd. }
      eapply elem_of_prefix; [|apply Hr]. simpl. apply elem_of_app. right. by left. }
  unfold process_diff, try_except. rewrite process_diff_body_unfold.
  destruct (load_hgmo_patch env diff w) as [[e|lines] w1]; simpl in *; [done|].
  by destruct (bulk_update_error _ _).
Qed.

(** The link table after the work on one diff. *)
Lemma process_diff_rows diff w k :
  issue_link_table (db (process_diff env diff w).2) !! k =
    settle env (db w) diff k <$> issue_link_table (db w) !! k.
Proof.
  rewrite process_diff_db, process_diff_body_db. unfold settle.
  destruct (diff_outcome env (db w) diff) as [e|lines]; simpl.
  - by rewrite option_fmap_id.
  - apply bulk_update_rows_classified.
Qed.

Lemma process_diff_diff_table diff w :
  diff_table (db (process_diff env diff w).2) = diff_table (db w).
Proof.
  rewrite process_diff_db, process_diff_body_db.
  by destruct (diff_outcome env (db w) diff).
Qed.

End process_diff.

(** ** A run over a list of diffs *)

Section run.
Context (env : Env).
Implicit Types (diff : Diff) (w : World) (d : DB) (r : IssueLinkRow).

Lemma classified_row_diff_id lines pk k r :
  row_diff_id (classified_row lines pk k r) = row_diff_id r.
Proof. unfold classified_row. by case_decide. Qed.

Lemma classified_row_other lines pk k r :
  row_diff_id r ≠ Some pk → classified_row lines pk k r = r.
Proof. unfold classified_row. by case_decide. Qed.

Lemma settle_diff_id d diff k r : row_diff_id (settle env d diff k r) = row_diff_id r.
Proof.
  unfold settle. destruct (diff_outcome env d diff); [done|].
  apply classified_row_diff_id.
Qed.

Lemma settle_other d diff k r :
  row_diff_id r ≠ Some (diff_pk diff) → settle env d diff k r = r.
Proof.
  unfold settle. destruct (diff_outcome env d diff); [done|].
  apply classified_row_other.
Qed.

(** The links of a diff are read from its own rows only. *)
Lemma issue_links_all_ext d d' pk :
  (∀ k r, row_diff_id r = Some pk →
     issue_link_table d !! k = Some r ↔ issue_link_table d' !! k = Some r) →
  issue_links_all d pk = issue_links_all d' pk.
Proof.
  intros Hrows. unfold issue_links_all. do 2 f_equal.
  apply map_eq. intros k. apply option_eq. intros r.
  rewrite !map_lookup_filter_Some. simpl. split; intros [Hk Hr]; (split; [|done]).
  - by apply Hrows.
  - by apply Hrows.
Qed.

Lemma diff_outcome_ext d d' diff :
  issue_links_all d (diff_pk diff) = issue_links_all d' (diff_pk diff) →
  diff_outcome env d diff = diff_outcome env d' diff.
Proof. unfold diff_outcome, classified_links. by intros ->. Qed.

(** Work on one diff leaves the links of every other diff alone. *)
Lemma process_diff_issue_links_all diff w pk :
  pk ≠ diff_pk diff →
  issue_links_all (db (process_diff env diff w).2) pk = issue_links_all (db w) pk.
Proof.
  intros Hpk. apply issue_links_all_ext. intros k r Hr.
  rewrite process_diff_rows.
  destruct (issue_link_table (db w) !! k) as [r0|]; simpl; [|done].
  split; intros [= Heq].
  - assert (row_diff_id r0 ≠ Some (diff_pk diff)) as Hne.
    { rewrite <- (settle_diff_id (db w) diff k r0), Heq, Hr. congruence. }
    rewrite settle_other in Heq by done. by subst.
  - subst r0. rewrite settle_other; [done|]. rewrite Hr. congruence.
Qed.

Lemma settle_all_ext d d' diffs k r :
  (∀ diff, diff ∈ diffs →
     issue_links_all d (diff_pk diff) = issue_links_all d' (diff_pk diff)) →
  settle_all env d diffs k r = settle_all env d' diffs k r.
Proof.
  unfold settle_all. revert r. induction diffs as [|diff diffs IH]; intros r Hd; [done|].
  simpl. unfold settle at 2 4.
  rewrite (diff_outcome_ext d d' diff) by (apply Hd; left).
  apply IH. intros diff' Hin. apply Hd. by right.
Qed.

Lemma settle_all_diff_id d diffs k r :
  row_diff_id (settle_all env d diffs k r) = row_diff_id r.
Proof.
  unfold settle_all. revert r. induction diffs as [|diff diffs IH]; intros r; [done|].
  simpl. by rewrite IH, settle_diff_id.
Qed.

(** A row that belongs to none of the diffs is not touched. *)
Lemma settle_all_other d diffs k r :
  (∀ diff, diff ∈ diffs → row_diff_id r ≠ Some (diff_pk diff)) →
  settle_all env d diffs k r = r.
Proof.
  unfold settle_all. revert r. induction diffs as [|diff diffs IH]; intros r Hd; [done|].
  simpl. rewrite settle_other by (apply Hd; left).
  apply IH. intros diff' Hin. apply Hd. by right.
Qed.

(** A row of one of the diffs is settled by that diff alone. *)
Lemma settle_all_own d diffs diff k r :
  NoDup (diff_pk <$> diffs) → diff ∈ diffs →
  row_diff_id r = Some (diff_pk diff) →
  settle_all env d diffs k r = settle env d diff k r.
Proof.
  unfold settle_all. revert r.
  induction diffs as [|diff' diffs IH]; intros r; [by intros _ ?%elem_of_nil|].
  rewrite fmap_cons, NoDup_cons. intros [Hnotin Hnodup] [->|Hin]%elem_of_cons Hr; simpl.
  - apply (settle_all_other d diffs k). intros diff Hin.
    rewrite settle_diff_id, Hr. intros [= Heq]. apply Hnotin. rewrite Heq.
    by apply list_elem_of_fmap_2.
  - rewrite settle_other.
    + by apply IH.
    + rewrite Hr. intros [= Heq]. apply Hnotin. rewrite <- Heq.
      by apply list_elem_of_fmap_2.
Qed.

Lemma pool_map_appends_only diffs : appends_only (pool_map (process_diff env) diffs).
Proof.
  induction diffs as [|diff diffs IH]; simpl; [done|].
  apply appends_only_bind; [apply process_diff_appends_only | done].
Qed.

(** The whole run: it returns, it leaves the diffs alone, and each row ends
    as the work on its own diff settles it. *)
Lemma pool_map_process_diff diffs w :
  NoDup (diff_pk <$> diffs) →
  (pool_map (process_diff env) diffs w).1 = inr tt ∧
  diff_table (db (pool_map (process_diff env) diffs w).2) = diff_table (db w) ∧
  ∀ k, issue_link_table (db (pool_map (process_diff env) diffs w).2) !! k =
       settle_all env (db w) diffs k <$> issue_link_table (db w) !! k.
Proof.
  revert w. induction diffs as [|diff diffs IH]; intros w.
  { intros _. repeat split. intros k. simpl. by rewrite option_fmap_id. }
  rewrite fmap_cons, NoDup_cons. intros [Hnotin Hnodup]. simpl.
  pose proof (process_diff_returns env diff w) as Hret.
  pose proof (process_diff_diff_table env diff w) as Hdiffs.
  pose proof (process_diff_rows env diff w) as Hrows.
  pose proof (λ pk, process_diff_issue_links_all diff w pk) as Hlinks.
  unfold bind. destruct (process_diff env diff w) as [[e|[]] w1]; simpl in *; [done|].
  destruct (IH w1 Hnodup) as (IHret & IHdiffs & IHrows).
  split; [done|]. split; [congruence|]. intros k.
  rewrite IHrows, Hrows, <- option_fmap_compose. apply option_fmap_ext. intros r. simpl.
  apply settle_all_ext. intros diff' Hin. apply Hlinks.
  intros Heq. apply Hnotin. rewrite <- Heq. by apply list_elem_of_fmap_2.
Qed.

(** What the run leaves in the log and in the list of requests. *)
Lemma pool_map_attempts diffs w diff :
  NoDup (diff_pk <$> diffs) → diff ∈ diffs →
  json_rev_url diff ∈ requested (pool_map (process_diff env) diffs w).2 ∧
  ∀ e, diff_outcome env (db w) diff = inl e →
       FailureOnDiff (diff_pk diff) e ∈ log (pool_map (process_diff env) diffs w).2.
Proof.
  revert w. induction diffs as [|diff' diffs IH]; intros w; [by intros _ ?%elem_of_nil|].
  rewrite fmap_cons, NoDup_cons. intros [Hnotin Hnodup] Hin. simpl.
  pose proof (process_diff_requests env diff' w) as Hreq.
  pose proof (λ e, process_diff_logs_failure env diff' w e) as Hlog.
  pose proof (λ pk, process_diff_issue_links_all diff' w pk) as Hlinks.
  rewrite process_diff_body_outcome in Hlog.
  unfold bind. destruct (process_diff env diff' w) as [[e|[]] w1] eqn:Hw1; simpl in *.
  { pose proof (process_diff_returns env diff' w) as Hret. by rewrite Hw1 in Hret. }
  destruct (pool_map_appends_only diffs w1) as [Hl Hr].
  apply elem_of_cons in Hin as [->|Hin].
  - split; [by eapply elem_of_prefix|].
    intros e He. eapply elem_of_prefix; [|apply Hl]. apply Hlog. by rewrite He.
  - destruct (IH w1 Hnodup Hin) as [IHreq IHlog]. split; [done|].
    intros e He. apply IHlog. rewrite <- He. apply diff_outcome_ext, Hlinks.
    intros Heq. apply Hnotin. rewrite <- Heq. by apply list_elem_of_fmap_2.
Qed.

End run.

(** ** The selection of the work *)

Section selection.
Implicit Types (d : DB) (diff : Diff).

Lemma elem_of_diff_left_join_issue_links d diff ol :
  (diff, ol) ∈ diff_left_join_issue_links d ↔
  ∃ k row, diff = load_diff k row ∧ diff_table d !! k = Some row ∧
    ((issue_links_all d k = [] ∧ ol = None) ∨
     (∃ l, ol = Some l ∧ l ∈ issue_links_all d k)).
Proof.
  unfold diff_left_join_issue_links. rewrite list_elem_of_bind. split.
  - intros ([k row] & Hin & Hkr). apply elem_of_map_to_list in Hkr. simpl in Hin.
    exists k, row. destruct (issue_links_all d k) as [|l0 ls] eqn:Hlinks.
    + apply list_elem_of_singleton in Hin as [= -> ->]. by eauto.
    + apply (list_elem_of_fmap (λ l, (load_diff k row, Some l)) (l0 :: ls)) in Hin
        as (l & [= -> ->] & Hl). by eauto 8.
  - intros (k & row & -> & Hk & Hcase). exists (k, row).
    split; [|by apply elem_of_map_to_list]. simpl.
    destruct Hcase as [[-> ->] | (l & -> & Hl)]; [by left|].
    destruct (issue_links_all d k) as [|l0 ls]; [by apply elem_of_nil in Hl|].
    exact (list_elem_of_fmap_2 (λ l, (load_diff k row, Some l)) (l0 :: ls) l Hl).
Qed.

(** Who is selected: the diffs with a link whose [in_patch] is null, and
    the diffs without any link. *)
Lemma elem_of_pending_diffs d diff :
  diff ∈ pending_diffs d ↔
  ∃ k row, diff = load_diff k row ∧ diff_table d !! k = Some row ∧
    (issue_links_all d k = [] ∨ ∃ l, l ∈ issue_links_all d k ∧ in_patch l = None).
Proof.
  unfold pending_diffs, order_by_id.
  rewrite elem_of_remove_dups, merge_sort_Permutation, list_elem_of_fmap. split.
  - intros ([diff' ol] & -> & Hin). apply list_elem_of_In, filter_In in Hin as [Hin Hnull].
    apply list_elem_of_In, elem_of_diff_left_join_issue_links in Hin
      as (k & row & -> & Hk & Hcase).
    exists k, row. do 2 (split; [done|]).
    destruct Hcase as [[Hnone _] | (l & -> & Hl)]; [by left|]. right. exists l.
    split; [done|]. unfold in_patch__isnull in Hnull. simpl in Hnull.
    by apply bool_decide_eq_true in Hnull.
  - intros (k & row & -> & Hk & Hcase).
    destruct Hcase as [Hnone | (l & Hl & Hnull)].
    + exists (load_diff k row, None). split; [done|].
      apply list_elem_of_In, filter_In. split; [|done].
      apply list_elem_of_In, elem_of_diff_left_join_issue_links. by eauto 8.
    + exists (load_diff k row, Some l). split; [done|].
      apply list_elem_of_In, filter_In. split.
      * apply list_elem_of_In, elem_of_diff_left_join_issue_links. by eauto 8.
      * unfold in_patch__isnull. simpl. by apply bool_decide_eq_true.
Qed.

(** [distinct()]: no diff twice, and so no identifier twice. *)
Lemma pending_diffs_NoDup d : NoDup (diff_pk <$> pending_diffs d).
Proof.
  apply NoDup_fmap_2_strong; [|apply NoDup_remove_dups].
  intros a b (ka & ra & -> & Ha & _)%elem_of_pending_diffs
    (kb & rb & -> & Hb & _)%elem_of_pending_diffs. simpl. intros ->. congruence.
Qed.

Lemma remove_dups_StronglySorted {A} `{EqDecision A} (R : relation A) (l : list A) :
  StronglySorted R l → StronglySorted R (remove_dups l).
Proof.
  induction 1 as [|x l Hsorted IH Hall]; simpl; [constructor|].
  case_decide; [done|]. constructor; [done|].
  rewrite Forall_forall in Hall |- *. intros y Hy. apply Hall.
  exact (proj1 (elem_of_remove_dups _ _) Hy).
Qed.

(** [order_by("id")]. *)
Lemma pending_diffs_sorted d : StronglySorted id_le (pending_diffs d).
Proof.
  unfold pending_diffs, order_by_id.
  apply remove_dups_StronglySorted, StronglySorted_merge_sort; apply _.
Qed.

Lemma handle_unfold env w :
  handle env w = pool_map (process_diff env) (pending_diffs (db w)) w.
Proof. reflexivity. Qed.

End selection.

(** ** The command as a whole *)

Section handle.
Context (env : Env).
Implicit Types (diff : Diff) (w : World).

Lemma diff_outcome_inl diff w e :
  (process_diff_body env diff w).1 = inl e → diff_outcome env (db w) diff = inl e.
Proof.
  rewrite process_diff_body_outcome.
  destruct (diff_outcome env (db w) diff); congruence.
Qed.

Lemma diff_outcome_inr diff w lines :
  (process_diff_body env diff w).1 = inr tt →
  (load_hgmo_patch env diff w).1 = inr lines →
  diff_outcome env (db w) diff = inr lines.
Proof.
  rewrite process_diff_body_outcome. unfold diff_outcome.
  rewrite (load_hgmo_patch_world_blind env diff empty_world w). intros Hbody Hload.
  rewrite Hload in Hbody |- *.
  by destruct (bulk_update_error _ _).
Qed.

Lemma handle_run w :
  (handle env w).1 = inr tt ∧
  diff_table (db (handle env w).2) = diff_table (db w) ∧
  ∀ k, issue_link_table (db (handle env w).2) !! k =
       settle_all env (db w) (pending_diffs (db w)) k <$> issue_link_table (db w) !! k.
Proof.
  rewrite handle_unfold.
  exact (pool_map_process_diff env (pending_diffs (db w))
           w (pending_diffs_NoDup _)).
Qed.

(** A selected diff whose work raises: logged, and its rows are not written. *)
Lemma handle_failed_diff w diff e :
  diff ∈ pending_diffs (db w) →
  diff_outcome env (db w) diff = inl e →
  FailureOnDiff (diff_pk diff) e ∈ log (handle env w).2 ∧
  ∀ k r, issue_link_table (db w) !! k = Some r →
         row_diff_id r = Some (diff_pk diff) →
         issue_link_table (db (handle env w).2) !! k = Some r.
Proof.
  intros Hin Hfail. split.
  - rewrite handle_unfold.
    by apply (pool_map_attempts env (pending_diffs (db w))
                w diff (pending_diffs_NoDup _) Hin).
  - intros k r Hk Hr. destruct (handle_run w) as (_ & _ & ->). rewrite Hk. simpl. f_equal.
    rewrite (settle_all_own env _ _ diff) by (done || apply pending_diffs_NoDup).
    unfold settle. by rewrite Hfail.
Qed.

(** A selected diff whose work goes through: its rows carry the answer. *)
Lemma handle_classified_diff w diff lines :
  diff ∈ pending_diffs (db w) →
  diff_outcome env (db w) diff = inr lines →
  ∀ k r, issue_link_table (db w) !! k = Some r →
         row_diff_id r = Some (diff_pk diff) →
         issue_link_table (db (handle env w).2) !! k =
           Some (row_set_in_patch (in_patch (detect_in_patch (load_link k r) lines)) r).
Proof.
  intros Hin Hok k r Hk Hr. destruct (handle_run w) as (_ & _ & ->). rewrite Hk. simpl. f_equal.
  rewrite (settle_all_own env _ _ diff) by (done || apply pending_diffs_NoDup).
  unfold settle. rewrite Hok. unfold classified_row. by rewrite decide_True.
Qed.

Lemma handle_attempts w diff :
  diff ∈ pending_diffs (db w) → json_rev_url diff ∈ requested (handle env w).2.
Proof.
  intros Hin. rewrite handle_unfold.
  by apply (pool_map_attempts env (pending_diffs (db w))
              w diff (pending_diffs_NoDup _) Hin).
Qed.

End handle.

(** ** The fetcher: which patch is downloaded *)

(** C2. When the description in the fetched metadata begins with
    "try_task_config", the raw patch requested is that of the first parent;
    otherwise it is that of the diff's own commit. In both cases these are
    the only two requests made. For the metadata
    {"desc": "try_task_config for bug X", "parents": ["P1","P2"]} the
    revision is P1. *)
Theorem load_hgmo_patch_try_task_config (env : Env) (diff : Diff) (w : World)
    (resp : Response) (meta : Meta) :
  requests_get env (json_rev_url diff) = inr resp →
  ¬ (400 ≤ status_code resp < 600) →
  json env (text resp) = inr meta →
  (∀ p ps, String.prefix "try_task_config" (desc meta) = true → parents meta = p :: ps →
     requested (load_hgmo_patch env diff w).2 =
       requested w ++ [json_rev_url diff; raw_rev_url diff p]) ∧
  (String.prefix "try_task_config" (desc meta) = false →
     requested (load_hgmo_patch env diff w).2 =
       requested w ++ [json_rev_url diff; raw_rev_url diff (mercurial_hash diff)]) ∧
  patch_rev diff meta_try = inr "P1".
Proof.
  intros Hget Hok Hjson. split; [|split]; [| |done].
  - intros p ps Hprefix Hparents.
    rewrite (load_hgmo_patch_resolved env diff w resp meta p Hget Hok Hjson).
    + simpl. destruct (requests_get env (raw_rev_url diff p)) as [e|resp2]; [done|].
      case_bool_decide; [done|].
      destruct (parse_patch env (text resp2)) as [e|patch]; [done|].
      by case_bool_decide.
    + unfold patch_rev. by rewrite Hprefix, Hparents.
  - intros Hprefix.
    rewrite (load_hgmo_patch_resolved env diff w resp meta (mercurial_hash diff) Hget Hok Hjson).
    + simpl. destruct (requests_get env (raw_rev_url diff (mercurial_hash diff))) as [e|resp2]; [done|].
      case_bool_decide; [done|].
      destruct (parse_patch env (text resp2)) as [e|patch]; [done|].
      by case_bool_decide.
    + unfold patch_rev. by rewrite Hprefix.
Qed.

Lemma load_hgmo_patch_try_task_config_witness :
  requested (load_hgmo_patch env_try diff_abc (world_of db_two)).2 =
    ["https://hg.example/json-rev/abc"; "https://hg.example/raw-rev/P1"].
Proof.
  destruct (load_hgmo_patch_try_task_config env_try diff_abc (world_of db_two)
    (mkResponse 200 (json_rev_url diff_abc)) meta_try) as (Htry & _ & _).
  - reflexivity.
  - simpl. lia.
  - reflexivity.
  - apply (Htry "P1" ["P2"]); reflexivity.
Defined.

(** ** Failures stay with their diff *)

(** C3. When the work on a selected diff raises, at whatever step, the
    command still returns normally; the failure is logged with the diff's
    identifier; every row of that diff's links is exactly as before the run
    (a link that was unknown is still unknown); and every selected diff has
    been attempted, those whose work went through having their links
    classified and written. *)
Theorem handle_isolates_failures (env : Env) (w : World) (diff : Diff) (e : exn) :
  diff ∈ pending_diffs (db w) →
  (process_diff_body env diff w).1 = inl e →
  (handle env w).1 = inr tt ∧
  FailureOnDiff (diff_pk diff) e ∈ log (handle env w).2 ∧
  (∀ k r, issue_link_table (db w) !! k = Some r →
          row_diff_id r = Some (diff_pk diff) →
          issue_link_table (db (handle env w).2) !! k = Some r) ∧
  (∀ other, other ∈ pending_diffs (db w) →
     json_rev_url other ∈ requested (handle env w).2 ∧
     ∀ lines, (load_hgmo_patch env other w).1 = inr lines →
              (process_diff_body env other w).1 = inr tt →
              ∀ k r, issue_link_table (db w) !! k = Some r →
                     row_diff_id r = Some (diff_pk other) →
                     issue_link_table (db (handle env w).2) !! k =
                       Some (row_set_in_patch
                               (in_patch (detect_in_patch (load_link k r) lines)) r)).
Proof.
  intros Hin Hfail. apply diff_outcome_inl in Hfail.
  destruct (handle_failed_diff env w diff e Hin Hfail) as [Hlog Hrows].
  split; [apply handle_run|]. split; [done|]. split; [done|].
  intros other Hother. split; [by apply handle_attempts|].
  intros lines Hload Hbody. apply handle_classified_diff; [done|].
  by apply diff_outcome_inr.
Qed.

Lemma handle_isolates_failures_witness :
  (handle env_abc_down (world_of db_two)).1 = inr tt ∧
  FailureOnDiff 1 ConnectionError ∈ log (handle env_abc_down (world_of db_two)).2 ∧
  issue_link_table (db (handle env_abc_down (world_of db_two)).2) !! 10 =
    Some (mkIssueLinkRow (Some 1) 5 (mkIssue "a.c" (Some 8) 3) None) ∧
  json_rev_url diff_def ∈ requested (handle env_abc_down (world_of db_two)).2.
Proof.
  destruct (handle_isolates_failures env_abc_down (world_of db_two) diff_abc ConnectionError)
    as (Hret & Hlog & Hrows & Hothers).
  - apply list_elem_of_In. vm_compute. auto.
  - vm_compute. reflexivity.
  - split; [exact Hret|]. split; [exact Hlog|]. split.
    + apply Hrows; reflexivity.
    + apply (Hothers diff_def). apply list_elem_of_In. vm_compute. auto.
Defined.

(** ** An empty patch *)

Lemma load_hgmo_patch_fetch_failure env diff w e :
  requests_get env (json_rev_url diff) = inl e →
  (load_hgmo_patch env diff w).1 = inl e.
Proof.
  intros Hget. unfold load_hgmo_patch. fold (json_rev_url diff).
  unfold bind, logging_info, http_get. simpl. by rewrite Hget.
Qed.

(** C4. When both requests succeed and the parser returns an empty map,
    [load_hgmo_patch] raises; the worker catches it like any other failure:
    it returns normally, logs the failure with the diff's identifier and
    leaves the database as it was, which is what it does when the first
    request fails; and in a run the diff's links keep their rows while every
    selected diff is attempted. *)
Theorem empty_patch_is_a_failure (env : Env) (diff : Diff) (w : World)
    (resp : Response) (meta : Meta) (rev : string) (resp2 : Response) :
  requests_get env (json_rev_url diff) = inr resp →
  ¬ (400 ≤ status_code resp < 600) →
  json env (text resp) = inr meta →
  patch_rev diff meta = inr rev →
  requests_get env (raw_rev_url diff rev) = inr resp2 →
  ¬ (400 ≤ status_code resp2 < 600) →
  parse_patch env (text resp2) = inr ∅ →
  (load_hgmo_patch env diff w).1 = inl (AssertionError "Empty patch") ∧
  (process_diff env diff w).1 = inr tt ∧
  db (process_diff env diff w).2 = db w ∧
  FailureOnDiff (diff_pk diff) (AssertionError "Empty patch") ∈ log (process_diff env diff w).2 ∧
  (∀ env' e', requests_get env' (json_rev_url diff) = inl e' →
     (process_diff env' diff w).1 = (process_diff env diff w).1 ∧
     db (process_diff env' diff w).2 = db (process_diff env diff w).2) ∧
  (diff ∈ pending_diffs (db w) →
     (handle env w).1 = inr tt ∧
     (∀ k r, issue_link_table (db w) !! k = Some r →
             row_diff_id r = Some (diff_pk diff) →
             issue_link_table (db (handle env w).2) !! k = Some r) ∧
     (∀ other, other ∈ pending_diffs (db w) →
               json_rev_url other ∈ requested (handle env w).2)).
Proof.
  intros Hget Hok Hjson Hrev Hget2 Hok2 Hparse.
  assert (Hload : (load_hgmo_patch env diff w).1 = inl (AssertionError "Empty patch")).
  { rewrite (load_hgmo_patch_resolved env diff w resp meta rev Hget Hok Hjson Hrev).
    simpl. rewrite Hget2, (bool_decide_eq_false_2 _ Hok2), Hparse.
    by rewrite bool_decide_eq_true_2. }
  assert (Hbody : (process_diff_body env diff w).1 = inl (AssertionError "Empty patch")).
  { rewrite process_diff_body_unfold.
    by destruct (load_hgmo_patch env diff w) as [[e|lines] w1]; simplify_eq/=. }
  pose proof (diff_outcome_inl env diff w _ Hbody) as Hout.
  assert (Hdb : db (process_diff env diff w).2 = db w).
  { by rewrite process_diff_db, process_diff_body_db, Hout. }
  split; [done|]. split; [apply process_diff_returns|]. split; [done|].
  split; [by apply process_diff_logs_failure|]. split.
  - intros env' e' Hdown. rewrite !process_diff_returns. split; [done|].
    rewrite Hdb, process_diff_db, process_diff_body_db.
    unfold diff_outcome. by rewrite (load_hgmo_patch_fetch_failure env' diff _ e' Hdown).
  - intros Hin. split; [apply handle_run|]. split.
    + by apply (handle_failed_diff env w diff _ Hin Hout).
    + intros other. apply handle_attempts.
Qed.

Lemma empty_patch_is_a_failure_witness :
  (load_hgmo_patch env_empty_patch diff_abc (world_of db_two)).1 =
    inl (AssertionError "Empty patch") ∧
  db (process_diff env_empty_patch diff_abc (world_of db_two)).2 = db_two.
Proof.
  destruct (empty_patch_is_a_failure env_empty_patch diff_abc (world_of db_two)
    (mkResponse 200 (json_rev_url diff_abc)) (mkMeta "Bug 1 - fix the parser" ["P1"; "P2"])
    "abc" (mkResponse 200 (raw_rev_url diff_abc "abc")))
    as (Hload & _ & Hdb & _).
  - reflexivity.
  - simpl. lia.
  - reflexivity.
  - reflexivity.
  - reflexivity.
  - simpl. lia.
  - reflexivity.
  - split; [exact Hload | exact Hdb].
Defined.

(** ** What is written to [in_patch] *)

Lemma classified_row_cases lines pk k r :
  classified_row lines pk k r = r ∨
  row_diff_id r = Some pk ∧ ∃ b, classified_row lines pk k r = row_set_in_patch (Some b) r.
Proof.
  unfold classified_row. case_decide; [right|by left]. split; [done|].
  destruct (detect_in_patch_assigns (load_link k r) lines) as [b ->]. by exists b.
Qed.

Lemma settle_cases env d diff k r :
  settle env d diff k r = r ∨
  row_diff_id r = Some (diff_pk diff) ∧ ∃ b, settle env d diff k r = row_set_in_patch (Some b) r.
Proof.
  unfold settle. destruct (diff_outcome env d diff); [by left|].
  apply classified_row_cases.
Qed.

Lemma settle_all_cases env d diffs k r :
  settle_all env d diffs k r = r ∨
  ∃ diff b, diff ∈ diffs ∧ row_diff_id r = Some (diff_pk diff) ∧
            settle_all env d diffs k r = row_set_in_patch (Some b) r.
Proof.
  unfold settle_all. revert r. induction diffs as [|diff diffs IH]; intros r; [by left|].
  simpl. destruct (settle_cases env d diff k r) as [->|[Hr [b ->]]].
  - destruct (IH r) as [->|(diff' & b & Hin & Hr & ->)]; [by left|].
    right. exists diff', b. split; [by right | done].
  - right. destruct (IH (row_set_in_patch (Some b) r)) as [->|(diff' & b' & Hin & Hr' & ->)].
    + exists diff, b. split; [by left | done].
    + exists diff', b'. split; [by right | done].
Qed.

(** C7, as stated, fails: the command does not only move [in_patch] from
    unknown to a boolean. It classifies again every link of a selected
    diff; link 21 of diff 2 was true and is false after the run, diff 2
    having been selected for its other link. *)
Lemma handle_overwrites_a_classified_link :
  row_in_patch <$> issue_link_table db_two !! 21 = Some (Some true) ∧
  row_in_patch <$> issue_link_table db_two !! 20 = Some None ∧
  row_in_patch <$> issue_link_table (db (handle env_ok (world_of db_two)).2) !! 21 =
    Some (Some false).
Proof. repeat split; by vm_compute. Qed.

(** C7, amended. Every branch of the classifier assigns a boolean to
    [in_patch]. After a run of the command no row of the link table has
    appeared or disappeared, and every row is either exactly as it was or
    the same row with a boolean in [in_patch]; so null is never written, and
    a row that held a boolean holds one afterwards. A row is rewritten only
    with the links of its diff, and only when one of them was unknown. *)
Theorem in_patch_only_set_to_booleans :
  (∀ (issue_link : IssueLink) (lines : gmap string (list Z)),
     ∃ b, in_patch (detect_in_patch issue_link lines) = Some b) ∧
  (∀ (env : Env) (w : World) (k : Z),
     match issue_link_table (db w) !! k, issue_link_table (db (handle env w).2) !! k with
     | Some r, Some r' =>
         (r' = r ∨
          (∃ b, r' = row_set_in_patch (Some b) r) ∧
          (∃ pk l, row_diff_id r = Some pk ∧ l ∈ issue_links_all (db w) pk ∧ in_patch l = None)) ∧
         (row_in_patch r ≠ None → row_in_patch r' ≠ None)
     | None, None => True
     | _, _ => False
     end).
Proof.
  split.
  - intros issue_link lines.
    destruct (detect_in_patch_assigns issue_link lines) as [b ->]. by exists b.
  - intros env w k. destruct (handle_run env w) as (_ & _ & ->).
    destruct (issue_link_table (db w) !! k) as [r|] eqn:Hk; simpl; [|done].
    destruct (settle_all_cases env (db w) (pending_diffs (db w)) k r)
      as [->|(diff & b & Hin & Hr & ->)]; [by split; [left|]|].
    split; [|done]. right. split; [by exists b|]. exists (diff_pk diff).
    apply elem_of_pending_diffs in Hin as (kd & row & -> & _ & [Hnone | (l & Hl & Hnull)]).
    + exfalso. assert (Hl : load_link k r ∈ issue_links_all (db w) kd).
      { apply elem_of_issue_links_all. by exists k, r. }
      rewrite Hnone in Hl. by apply elem_of_nil in Hl.
    + by exists l.
Qed.

Lemma in_patch_only_set_to_booleans_witness :
  row_in_patch <$> issue_link_table (db (handle env_ok (world_of db_two)).2) !! 21 ≠ Some None.
Proof.
  destruct in_patch_only_set_to_booleans as [_ Hrun].
  specialize (Hrun env_ok (world_of db_two) 21).
  change (issue_link_table (db (world_of db_two)) !! 21)
    with (Some (mkIssueLinkRow (Some 2) 5 (mkIssue "b.c" None 1) (Some true))) in Hrun.
  destruct (issue_link_table (db (handle env_ok (world_of db_two)).2) !! 21) as [r'|];
    [|destruct Hrun].
  destruct Hrun as [_ Hkeep]. simpl in *. intros [= Hnull]. by apply Hkeep.
Defined.

(** ** What the batched write leaves alone *)

(** C10. The work on one diff, whatever its outcome, leaves the diff table
    alone and keeps every row of the link table in place with its diff, its
    revision and its issue; a row that belongs to another diff (or to none)
    is left exactly as it was. *)
Theorem process_diff_writes_only_in_patch (env : Env) (diff : Diff) (w : World) (k : Z) :
  diff_table (db (process_diff env diff w).2) = diff_table (db w) ∧
  match issue_link_table (db w) !! k, issue_link_table (db (process_diff env diff w).2) !! k with
  | Some r, Some r' =>
      row_diff_id r' = row_diff_id r ∧
      row_revision_id r' = row_revision_id r ∧
      row_issue r' = row_issue r ∧
      (row_diff_id r ≠ Some (diff_pk diff) → r' = r)
  | None, None => True
  | _, _ => False
  end.
Proof.
  split; [apply process_diff_diff_table|].
  rewrite process_diff_rows.
  destruct (issue_link_table (db w) !! k) as [r|]; simpl; [|done].
  split; [apply settle_diff_id|].
  destruct (settle_cases env (db w) diff k r) as [Hs|[_ [b Hs]]].
  - rewrite Hs. by repeat split.
  - repeat split; try (by rewrite Hs). apply settle_other.
Qed.

Lemma process_diff_writes_only_in_patch_witness :
  issue_link_table (db (process_diff env_ok diff_abc (world_of db_two)).2) !! 20 =
    Some (mkIssueLinkRow (Some 2) 5 (mkIssue "a.c" (Some 13) 5) None).
Proof.
  destruct (process_diff_writes_only_in_patch env_ok diff_abc (world_of db_two) 20) as [_ Hrow].
  change (issue_link_table (db (world_of db_two)) !! 20)
    with (Some (mkIssueLinkRow (Some 2) 5 (mkIssue "a.c" (Some 13) 5) None)) in Hrow.
  destruct (issue_link_table (db (process_diff env_ok diff_abc (world_of db_two)).2) !! 20)
    as [r'|]; [|destruct Hrow].
  destruct Hrow as (_ & _ & _ & Hother). f_equal. apply Hother. simpl. discriminate.
Defined.

(** ** The classifier and the object it is given *)

(** C8, as stated, fails: the classifier is not free of side effects. It
    assigns to the link it is given; the object store after the call is not
    the store before it. *)
Lemma detect_in_patch_ref_writes_the_link :
  in_patch <$> heap_one !! 1%positive = Some None ∧
  ∃ heap',
    detect_in_patch_ref 1 patch_a_c heap_one = Some (1%positive, heap') ∧
    in_patch <$> heap' !! 1%positive = Some (Some true) ∧
    heap' ≠ heap_one.
Proof.
  split; [reflexivity|]. eexists. split; [reflexivity|]. split; [by vm_compute|].
  intros Heq. apply (f_equal (λ h, in_patch <$> h !! 1%positive)) in Heq.
  vm_compute in Heq. discriminate.
Qed.

(** C8, amended. The classifier is a function of the issue's path, line and
    line count and of the parsed patch: links to the same issue get the same
    boolean, whatever else they hold. Its one effect is the assignment of
    that boolean to [in_patch] of the link it is given, which it returns;
    every other object is left alone, and a second call changes nothing. *)
Theorem detect_in_patch_ref_effect (r : positive) (lines : gmap string (list Z))
    (heap : gmap positive IssueLink) (issue_link : IssueLink) :
  heap !! r = Some issue_link →
  ∃ b heap',
    detect_in_patch_ref r lines heap = Some (r, heap') ∧
    heap' !! r = Some (set_in_patch issue_link (Some b)) ∧
    (∀ r', r' ≠ r → heap' !! r' = heap !! r') ∧
    (∀ other, issue other = issue issue_link →
              in_patch (detect_in_patch other lines) = Some b) ∧
    detect_in_patch_ref r lines heap' = Some (r, heap').
Proof.
  intros Hr. destruct (detect_in_patch_assigns issue_link lines) as [b Hb].
  exists b, (<[r := set_in_patch issue_link (Some b)]> heap).
  unfold detect_in_patch_ref. rewrite Hr, Hb, lookup_insert_eq.
  split; [done|]. split; [done|]. split; [|split].
  - intros r' Hne. by rewrite lookup_insert_ne.
  - intros other Hissue. apply (f_equal in_patch) in Hb. simpl in Hb. rewrite <- Hb.
    unfold detect_in_patch. rewrite Hissue.
    by destruct (lines !! path (issue issue_link)); [destruct (line (issue issue_link))|].
  - rewrite detect_in_patch_set_in_patch, Hb. by rewrite insert_insert_eq.
Qed.

Lemma detect_in_patch_ref_effect_witness :
  ∃ b heap',
    detect_in_patch_ref 1 patch_a_c heap_one = Some (1%positive, heap') ∧
    heap' !! 1%positive = Some (set_in_patch (link_at "a.c" (Some 8) 3) (Some b)).
Proof.
  destruct (detect_in_patch_ref_effect 1 patch_a_c heap_one (link_at "a.c" (Some 8) 3))
    as (b & heap' & Hcall & Hlink & _).
  - reflexivity.
  - exists b, heap'. split; [exact Hcall | exact Hlink].
Defined.

(** ** Publishable issues *)

Lemma sql_where_publishable (i : Api.Issue) :
  Api.sql_where (Api.Q_or (Api.Q_in_patch true) (Api.Q_level Api.LEVEL_ERROR)) i = true ↔
  Api.publishable i.
Proof.
  unfold Api.sql_where, Api.publishable, Api.LEVEL_ERROR. cbn [Api.sql_eval].
  destruct (Api.in_patch i) as [[]|];
    destruct (bool_decide_reflect (Api.level i = "error")) as [Hl|Hl]; cbn;
    (split; [intros ? | intros [?|?]]); try done; auto.
Qed.

Lemma elem_of_List_filter {A} (f : A → bool) (l : list A) (x : A) :
  x ∈ List.filter f l ↔ x ∈ l ∧ f x = true.
Proof. by rewrite !list_elem_of_In, filter_In. Qed.

(** The issues of the table for the repository, the analyzer and the check
    of the URL, newest first: the queryset before the [publishable] and
    [since] parameters are looked at. *)
Lemma elem_of_check_base (kwargs : Api.Kwargs) (issues : list Api.Issue) (i : Api.Issue) :
  i ∈ merge_sort Api.newest_first
        (List.filter (λ i, bool_decide (Api.analyzer_check i = Api.kw_check kwargs))
           (List.filter (λ i, bool_decide (Api.analyzer i = Api.kw_analyzer kwargs))
              (i ← issues; slug ← Api.head_repositories i;
               if bool_decide (slug = Api.kw_repository kwargs) then [i] else []))) ↔
  i ∈ issues ∧ Api.kw_repository kwargs ∈ Api.head_repositories i ∧
  Api.analyzer i = Api.kw_analyzer kwargs ∧ Api.analyzer_check i = Api.kw_check kwargs.
Proof.
  rewrite merge_sort_Permutation, !elem_of_List_filter, !bool_decide_eq_true.
  rewrite list_elem_of_bind. split.
  - intros [[(i' & Hin & Hi') Ha] Hc]. apply list_elem_of_bind in Hin as (slug & Hin & Hslug).
    case_bool_decide; [|by apply elem_of_nil in Hin].
    apply list_elem_of_singleton in Hin. by subst.
  - intros (Hi & Hrepo & Ha & Hc). split; [split|]; [|done|done].
    exists i. split; [|done]. apply list_elem_of_bind. exists (Api.kw_repository kwargs).
    split; [|done]. rewrite bool_decide_eq_true_2 by done. by left.
Qed.

(** C9. The filter that both views build is true of an issue exactly when
    its [in_patch] is true or its level is "error" (a null [in_patch] with
    another level does not pass). The per-diff count
    [nb_issues_publishable] is the number of the diff's issues of which it
    is true. The per-check listing, when no [publishable] parameter is
    given or when it is "true" in some mix of cases, lists exactly the
    issues of the table for the repository, the analyzer and the check of
    the URL, created on the [since] day or later when that parameter is
    given, that are in the patch or of level "error"; it fails only on a
    [since] parameter that does not parse. Without the parameter it is also
    the listing for [publishable=all] restricted to those issues. *)
Theorem publishable_is_in_patch_or_error :
  (∀ i, Api.sql_where Api.diff_publishable_filter i = true ↔ Api.publishable i) ∧
  (∀ issues,
     Api.nb_issues_publishable (Api.annotate issues) = length (filter Api.publishable issues)) ∧
  (∀ strptime kwargs (query_params : gmap string string) issues,
     Api.lower (default "true" (query_params !! "publishable")) = "true" →
     match Api.get_queryset strptime kwargs query_params issues with
     | inr listed =>
         ∀ i, i ∈ listed ↔
              i ∈ issues ∧
              Api.kw_repository kwargs ∈ Api.head_repositories i ∧
              Api.analyzer i = Api.kw_analyzer kwargs ∧
              Api.analyzer_check i = Api.kw_check kwargs ∧
              (∀ since, query_params !! "since" = Some since →
                        ∃ day, strptime since = Some day ∧ day ≤ Api.created i) ∧
              Api.publishable i
     | inl e =>
         e = Api.APIException "invalid since date - should be YYYY-MM-DD" ∧
         ∃ since, query_params !! "since" = Some since ∧ strptime since = None
     end) ∧
  (∀ strptime kwargs (query_params : gmap string string) issues,
     query_params !! "publishable" = None →
     match Api.get_queryset strptime kwargs query_params issues,
           Api.get_queryset strptime kwargs (<["publishable" := "all"]> query_params) issues with
     | inr listed, inr all => ∀ i, i ∈ listed ↔ i ∈ all ∧ Api.publishable i
     | inl e, inl e' => e = e'
     | _, _ => False
     end).
Proof.
  split; [|split; [|split]].
  - intros i. apply sql_where_publishable.
  - intros issues. unfold Api.annotate, Api.Count, Api.qs_filter. simpl.
    induction issues as [|i issues IH]; [done|]. simpl.
    rewrite filter_cons. pose proof (sql_where_publishable i) as Hi.
    change (Api.Q_or _ _) with Api.diff_publishable_filter in Hi.
    destruct (Api.sql_where Api.diff_publishable_filter i); case_decide; simpl;
      try (by rewrite IH).
    + exfalso. tauto.
    + exfalso. destruct Hi as [_ Hi]. by specialize (Hi ltac:(done)).
  - intros strptime kwargs query_params issues Htrue. unfold Api.get_queryset.
    rewrite Htrue. rewrite bool_decide_eq_true_2 by done.
    destruct (query_params !! "since") as [since|] eqn:Hsince;
      [destruct (strptime since) as [day|] eqn:Hparse|].
    + intros i. rewrite elem_of_remove_dups, elem_of_List_filter, bool_decide_eq_true.
      unfold Api.qs_filter. rewrite elem_of_List_filter, sql_where_publishable.
      rewrite elem_of_check_base. split.
      * intros [[(? & ? & ? & ?) ?] ?]. repeat (split; [done|]). split; [|done].
        intros since' [= <-]. by exists day.
      * intros (? & ? & ? & ? & Hday & ?). split; [done|].
        destruct (Hday since eq_refl) as (day' & Hday' & ?). congruence.
    + split; [done|]. by exists since.
    + intros i. rewrite elem_of_remove_dups.
      unfold Api.qs_filter. rewrite elem_of_List_filter, sql_where_publishable.
      rewrite elem_of_check_base. split.
      * intros [(? & ? & ? & ?) ?]. by repeat (split; [done|]).
      * intros (? & ? & ? & ? & _ & ?). done.
  - intros strptime kwargs query_params issues Hnone. unfold Api.get_queryset.
    rewrite Hnone, lookup_insert_eq, lookup_insert_ne by done. simpl.
    destruct (query_params !! "since") as [since|]; [destruct (strptime since) as [day|]|];
      try done; intros i; rewrite !elem_of_remove_dups, !list_elem_of_In.
    + rewrite !filter_In. unfold Api.qs_filter. rewrite filter_In.
      rewrite sql_where_publishable. tauto.
    + unfold Api.qs_filter. rewrite filter_In.
      rewrite sql_where_publishable. tauto.
Qed.

Lemma publishable_is_in_patch_or_error_witness :
  match Api.get_queryset (λ _, None)
          (Api.mkKwargs "mozilla-central" "clang-tidy" "modernize-use-auto") ∅
          [issue_in_patch; issue_error; issue_outside; issue_unknown] with
  | inr listed =>
      issue_in_patch ∈ listed ∧ issue_error ∈ listed ∧
      (issue_outside ∉ listed) ∧ (issue_unknown ∉ listed)
  | inl _ => False
  end.
Proof.
  destruct publishable_is_in_patch_or_error as (_ & _ & Hlist & _).
  specialize (Hlist (λ _, None)
    (Api.mkKwargs "mozilla-central" "clang-tidy" "modernize-use-auto")
    ∅ [issue_in_patch; issue_error; issue_outside; issue_unknown] eq_refl).
  destruct (Api.get_queryset _ _ _ _) as [e|listed].
  - destruct Hlist as (_ & since & Hsince & _). by rewrite lookup_empty in Hsince.
  - assert (Hin : ∀ i, i ∈ [issue_in_patch; issue_error; issue_outside; issue_unknown] →
                       Api.publishable i → i ∈ listed).
    { intros i Hi Hp. apply Hlist. split; [done|].
      repeat (apply elem_of_cons in Hi as [-> | Hi]);
        [| | | |by apply elem_of_nil in Hi];
        (repeat (split; [by (reflexivity || (apply list_elem_of_In; vm_compute; auto))|]));
        (split; [|done]); intros since Hsince; by rewrite lookup_empty in Hsince. }
    split; [|split; [|split]].
    + apply Hin; [by left | by left].
    + apply Hin; [right; by left | by right].
    + intros (_ & _ & _ & _ & _ & [Hp | Hp])%Hlist; discriminate.
    + intros (_ & _ & _ & _ & _ & [Hp | Hp])%Hlist; discriminate.
Defined.

(** ** Which diffs are selected *)

(** C5, on a database with one diff for which no issue was reported. The
    diff has no link at all, so none with a null [in_patch]; the selection
    returns it all the same, and the run requests its metadata and its
    patch and classifies nothing. *)
Theorem pending_diffs_selects_a_diff_without_links :
  issue_links_all db_bare 1 = [] ∧
  pending_diffs db_bare = [diff_abc] ∧
  (handle env_ok (world_of db_bare)).1 = inr tt ∧
  requested (handle env_ok (world_of db_bare)).2 =
    ["https://hg.example/json-rev/abc"; "https://hg.example/raw-rev/abc"] ∧
  log (handle env_ok (world_of db_bare)).2 =
    [Downloading "https://hg.example/json-rev/abc";
     Downloading "https://hg.example/raw-rev/abc"; FoundInPatch 0 1].
Proof. repeat split; by vm_compute. Qed.

(** A diff that has links, all of them classified, is not selected. *)
Lemma pending_diffs_skips_classified d diff l :
  l ∈ issue_links_all d (diff_pk diff) →
  (∀ l', l' ∈ issue_links_all d (diff_pk diff) → in_patch l' ≠ None) →
  diff ∉ pending_diffs d.
Proof.
  intros Hl Hall (k & row & -> & Hk & Hcase)%elem_of_pending_diffs. simpl in *.
  destruct Hcase as [Hnone | (l' & Hl' & Hnull)].
  - rewrite Hnone in Hl. by apply elem_of_nil in Hl.
  - by apply (Hall l').
Qed.

(** ** Running the command twice *)

(** C6, on a database with one diff that has an unclassified link and one
    diff without any issue. The first run selects both and succeeds on
    both; the second run still selects the diff without issues and requests
    its metadata and its patch again. The link table is the same after both
    runs. *)
Theorem second_run_fetches_again :
  let w1 := (handle env_ok (world_of db_linked_and_bare)).2 in
  let w2 := (handle env_ok w1).2 in
  pending_diffs db_linked_and_bare = [diff_abc; diff_def] ∧
  (process_diff_body env_ok diff_abc (world_of db_linked_and_bare)).1 = inr tt ∧
  (process_diff_body env_ok diff_def (world_of db_linked_and_bare)).1 = inr tt ∧
  issue_link_table (db w1) !! 10 =
    Some (mkIssueLinkRow (Some 1) 5 (mkIssue "a.c" (Some 8) 3) (Some true)) ∧
  pending_diffs (db w1) = [diff_def] ∧
  requested w2 =
    requested w1 ++ ["https://hg.example/json-rev/def"; "https://hg.example/raw-rev/def"] ∧
  issue_link_table (db w2) = issue_link_table (db w1).
Proof. repeat split; by vm_compute. Qed.

(** After a run in which the work on every selected diff went through, no
    link of any diff is left unknown: the diffs that a second run selects
    are those without any link, and whatever the outside world then
    answers, the second run leaves every row of the link table as the first
    run left it. *)
Lemma second_run_keeps_the_links (env env2 : Env) (w : World) :
  (∀ diff, diff ∈ pending_diffs (db w) → ∃ lines, diff_outcome env (db w) diff = inr lines) →
  (∀ diff, diff ∈ pending_diffs (db (handle env w).2) →
           issue_links_all (db (handle env w).2) (diff_pk diff) = []) ∧
  issue_link_table (db (handle env2 (handle env w).2).2) =
    issue_link_table (db (handle env w).2).
Proof.
  intros Hok. destruct (handle_run env w) as (_ & Hdiffs & Hrows).
  assert (Hbare : ∀ diff, diff ∈ pending_diffs (db (handle env w).2) →
                          issue_links_all (db (handle env w).2) (diff_pk diff) = []).
  { intros diff (k & row & -> & Hk & [Hnone | (l & Hl & Hnull)])%elem_of_pending_diffs;
      [done|]. exfalso.
    apply elem_of_issue_links_all in Hl as (kl & r' & -> & Hkl & Hr'). simpl in Hnull.
    rewrite Hrows in Hkl. rewrite Hdiffs in Hk.
    destruct (issue_link_table (db w) !! kl) as [r|] eqn:Hr; [|done].
    simpl in Hkl. injection Hkl as <-. rewrite settle_all_diff_id in Hr'.
    destruct (decide (load_diff k row ∈ pending_diffs (db w))) as [Hin|Hout].
    - destruct (Hok _ Hin) as [lines Hlines].
      rewrite (settle_all_own env _ _ (load_diff k row)) in Hnull
        by (done || apply pending_diffs_NoDup).
      unfold settle, classified_row in Hnull. rewrite Hlines, decide_True in Hnull by done.
      simpl in Hnull. destruct (detect_in_patch_assigns (load_link kl r) lines) as [b Hb].
      by rewrite Hb in Hnull.
    - rewrite settle_all_other in Hnull.
      + apply Hout, elem_of_pending_diffs. exists k, row. do 2 (split; [done|]).
        right. exists (load_link kl r). split; [|done].
        apply elem_of_issue_links_all. by exists kl, r.
      + intros diff' Hin' Heq. apply Hout.
        pose proof Hin' as (k' & row' & -> & Hk' & _)%elem_of_pending_diffs.
        rewrite Hr' in Heq. injection Heq as ->. simpl in Hk. by simplify_eq. }
  split; [done|]. apply map_eq. intros k.
  destruct (handle_run env2 (handle env w).2) as (_ & _ & ->).
  destruct (issue_link_table (db (handle env w).2) !! k) as [r|] eqn:Hr; [|done].
  simpl. f_equal. apply settle_all_other. intros diff Hin Heq.
  assert (Hl : load_link k r ∈ issue_links_all (db (handle env w).2) (diff_pk diff)).
  { apply elem_of_issue_links_all. by exists k, r. }
  rewrite (Hbare diff Hin) in Hl. by apply elem_of_nil in Hl.
Qed.

(** * Further properties of the command *)

(** ** The fetcher *)

Lemma load_hgmo_patch_metadata_raises env diff w e :
  (requests_get env (json_rev_url diff) = inl e ∨
   ∃ resp, requests_get env (json_rev_url diff) = inr resp ∧
     (400 ≤ status_code resp < 600 ∧ e = HTTPError (status_code resp) ∨
      ¬ (400 ≤ status_code resp < 600) ∧
        (json env (text resp) = inl e ∨
         ∃ meta, json env (text resp) = inr meta ∧ patch_rev diff meta = inl e))) →
  load_hgmo_patch env diff w =
    (inl e, mkWorld (db w) (log w ++ [Downloading (json_rev_url diff)])
              (requested w ++ [json_rev_url diff])).
Proof.
  intros Hcase. unfold load_hgmo_patch. fold (json_rev_url diff).
  unfold bind, logging_info, http_get, lift, raise_for_status. simpl.
  destruct Hcase as [-> | (resp & -> & [[Hbad ->] | [Hok Hrest]])]; [done| |].
  - by rewrite (bool_decide_eq_true_2 _ Hbad).
  - rewrite (bool_decide_eq_false_2 _ Hok). simpl.
    destruct Hrest as [-> | (meta & -> & ->)]; done.
Qed.

(** Either the metadata step raises, or [patch_rev] is assigned. *)
Lemma load_hgmo_patch_metadata_cases env diff :
  (∃ e, requests_get env (json_rev_url diff) = inl e ∨
        ∃ resp, requests_get env (json_rev_url diff) = inr resp ∧
          (400 ≤ status_code resp < 600 ∧ e = HTTPError (status_code resp) ∨
           ¬ (400 ≤ status_code resp < 600) ∧
             (json env (text resp) = inl e ∨
              ∃ meta, json env (text resp) = inr meta ∧ patch_rev diff meta = inl e))) ∨
  (∃ resp meta rev, requests_get env (json_rev_url diff) = inr resp ∧
                    ¬ (400 ≤ status_code resp < 600) ∧
                    json env (text resp) = inr meta ∧ patch_rev diff meta = inr rev).
Proof.
  destruct (requests_get env (json_rev_url diff)) as [e|resp]; [left; by eauto|].
  destruct (decide (400 ≤ status_code resp < 600)) as [Hbad|Hok].
  { left. exists (HTTPError (status_code resp)). right. exists resp. by eauto. }
  destruct (json env (text resp)) as [e|meta] eqn:Hjson.
  { left. exists e. right. exists resp. by eauto 8. }
  destruct (patch_rev diff meta) as [e|rev] eqn:Hrev.
  - left. exists e. right. exists resp. split; [done|]. right. split; [done|]. right. by eauto.
  - right. by exists resp, meta, rev.
Qed.

Lemma load_hgmo_patch_trace env diff w :
  ∃ urls,
    requested (load_hgmo_patch env diff w).2 = requested w ++ urls ∧
    log (load_hgmo_patch env diff w).2 = log w ++ (Downloading <$> urls) ∧
    db (load_hgmo_patch env diff w).2 = db w ∧
    (urls = [json_rev_url diff] ∨ ∃ rev, urls = [json_rev_url diff; raw_rev_url diff rev]).
Proof.
  destruct (load_hgmo_patch_metadata_cases env diff)
    as [[e Hraise] | (resp & meta & rev & Hget & Hok & Hjson & Hrev)].
  - exists [json_rev_url diff].
    rewrite (load_hgmo_patch_metadata_raises env diff w e Hraise). simpl. by eauto.
  - exists [json_rev_url diff; raw_rev_url diff rev].
    rewrite (load_hgmo_patch_resolved env diff w resp meta rev Hget Hok Hjson Hrev). simpl.
    destruct (requests_get env (raw_rev_url diff rev)) as [e|resp2];
      [|case_bool_decide; [|destruct (parse_patch env (text resp2)) as [e|patch];
                             [|case_bool_decide]]];
      simpl; by eauto 6.
Qed.

(** X1. Whatever the remote service answers, [load_hgmo_patch] requests the
    commit's metadata first and then at most one raw patch, of the same
    repository; it logs each URL it requests, in the same order, and it
    leaves the database alone. *)
Theorem load_hgmo_patch_requests_and_log (env : Env) (diff : Diff) (w : World) :
  ∃ urls,
    requested (load_hgmo_patch env diff w).2 = requested w ++ urls ∧
    log (load_hgmo_patch env diff w).2 = log w ++ (Downloading <$> urls) ∧
    db (load_hgmo_patch env diff w).2 = db w ∧
    (urls = [json_rev_url diff] ∨ ∃ rev, urls = [json_rev_url diff; raw_rev_url diff rev]).
Proof. apply load_hgmo_patch_trace. Qed.

(** X2. When the metadata request fails, by a transport error or by a
    response with a client or server error status, [load_hgmo_patch] raises
    that error (an [HTTPError] carrying the status) and the raw patch is
    never requested; the worker logs the failure with the diff's identifier
    and leaves the database as it was. *)
Theorem metadata_failure_stops_the_fetch (env : Env) (diff : Diff) (w : World) (e : exn) :
  (requests_get env (json_rev_url diff) = inl e ∨
   ∃ resp, requests_get env (json_rev_url diff) = inr resp ∧
           400 ≤ status_code resp < 600 ∧ e = HTTPError (status_code resp)) →
  (load_hgmo_patch env diff w).1 = inl e ∧
  requested (load_hgmo_patch env diff w).2 = requested w ++ [json_rev_url diff] ∧
  requested (process_diff env diff w).2 = requested w ++ [json_rev_url diff] ∧
  log (process_diff env diff w).2 =
    log w ++ [Downloading (json_rev_url diff); FailureOnDiff (diff_pk diff) e] ∧
  db (process_diff env diff w).2 = db w.
Proof.
  intros Hfail.
  assert (Hload : load_hgmo_patch env diff w =
    (inl e, mkWorld (db w) (log w ++ [Downloading (json_rev_url diff)])
              (requested w ++ [json_rev_url diff]))).
  { apply load_hgmo_patch_metadata_raises.
    destruct Hfail as [?|(resp & ? & ? & ?)]; [by left|]. right. exists resp. by eauto. }
  unfold process_diff, try_except. rewrite process_diff_body_unfold, Hload. simpl.
  by rewrite <- (assoc_L (++)).
Qed.

Lemma metadata_failure_stops_the_fetch_witness :
  requested (process_diff env_http_500 diff_abc (world_of db_two)).2 =
    ["https://hg.example/json-rev/abc"] ∧
  log (process_diff env_http_500 diff_abc (world_of db_two)).2 =
    [Downloading "https://hg.example/json-rev/abc"; FailureOnDiff 1 (HTTPError 500)].
Proof.
  destruct (metadata_failure_stops_the_fetch env_http_500 diff_abc (world_of db_two)
    (HTTPError 500)) as (_ & _ & Hreq & Hlog & _).
  - right. exists (mkResponse 500 "Internal Server Error"). simpl.
    split; [reflexivity|]. split; [lia | reflexivity].
  - split; [exact Hreq | exact Hlog].
Defined.

(** X3. When the description begins with "try_task_config" and the list of
    parents is empty, [parents[0]] raises [IndexError]: no raw patch is
    requested, the worker logs the failure and writes nothing. *)
Theorem try_task_config_without_parents (env : Env) (diff : Diff) (w : World)
    (resp : Response) (meta : Meta) :
  requests_get env (json_rev_url diff) = inr resp →
  ¬ (400 ≤ status_code resp < 600) →
  json env (text resp) = inr meta →
  String.prefix "try_task_config" (desc meta) = true →
  parents meta = [] →
  (load_hgmo_patch env diff w).1 = inl IndexError ∧
  requested (process_diff env diff w).2 = requested w ++ [json_rev_url diff] ∧
  FailureOnDiff (diff_pk diff) IndexError ∈ log (process_diff env diff w).2 ∧
  db (process_diff env diff w).2 = db w.
Proof.
  intros Hget Hok Hjson Hprefix Hparents.
  assert (Hload : load_hgmo_patch env diff w =
    (inl IndexError, mkWorld (db w) (log w ++ [Downloading (json_rev_url diff)])
                       (requested w ++ [json_rev_url diff]))).
  { apply load_hgmo_patch_metadata_raises. right. exists resp. split; [done|].
    right. split; [done|]. right. exists meta. split; [done|].
    unfold patch_rev. by rewrite Hprefix, Hparents. }
  unfold process_diff, try_except. rewrite process_diff_body_unfold, Hload. simpl.
  repeat split. apply elem_of_app. right. by left.
Qed.

Lemma try_task_config_without_parents_witness :
  (load_hgmo_patch env_no_parents diff_abc (world_of db_two)).1 = inl IndexError ∧
  requested (process_diff env_no_parents diff_abc (world_of db_two)).2 =
    ["https://hg.example/json-rev/abc"].
Proof.
  destruct (try_task_config_without_parents env_no_parents diff_abc (world_of db_two)
    (mkResponse 200 (json_rev_url diff_abc)) (mkMeta "try_task_config" []))
    as (Hload & Hreq & _).
  - reflexivity.
  - simpl. lia.
  - reflexivity.
  - reflexivity.
  - reflexivity.
  - split; [exact Hload | exact Hreq].
Defined.

(** X4. What [load_hgmo_patch] returns, when it returns, is never the empty
    dictionary: it has exactly the files of a patch that the parser made of
    the body of a successful raw-rev response of the diff's repository, and
    for each file the touched lines followed by the added lines, a missing
    key counting as no line. *)
Theorem load_hgmo_patch_result (env : Env) (diff : Diff) (w : World)
    (lines : gmap string (list Z)) :
  (load_hgmo_patch env diff w).1 = inr lines →
  lines ≠ ∅ ∧
  ∃ rev resp patch,
    requests_get env (raw_rev_url diff rev) = inr resp ∧
    ¬ (400 ≤ status_code resp < 600) ∧
    parse_patch env (text resp) = inr patch ∧
    dom lines = dom patch ∧
    ∀ file changes, patch !! file = Some changes →
      lines !! file = Some (default [] (touched changes) ++ default [] (added changes)).
Proof.
  destruct (load_hgmo_patch_metadata_cases env diff)
    as [[e Hraise] | (resp & meta & rev & Hget & Hok & Hjson & Hrev)].
  { by rewrite (load_hgmo_patch_metadata_raises env diff w e Hraise). }
  rewrite (load_hgmo_patch_resolved env diff w resp meta rev Hget Hok Hjson Hrev). simpl.
  destruct (requests_get env (raw_rev_url diff rev)) as [e|resp2] eqn:Hget2; [done|].
  case_bool_decide as Hok2; [done|].
  destruct (parse_patch env (text resp2)) as [e|patch] eqn:Hparse; [done|].
  case_bool_decide as Hempty; [done|]. simpl. intros [= <-]. split.
  - intros Heq. by apply fmap_empty_inv in Heq.
  - exists rev, resp2, patch. do 3 (split; [done|]). split.
    + by rewrite dom_fmap_L.
    + intros file changes Hfile. by rewrite lookup_fmap, Hfile.
Qed.

Lemma load_hgmo_patch_result_witness :
  patch_a_c ≠ ∅ ∧
  ∃ rev resp patch,
    requests_get env_ok (raw_rev_url diff_abc rev) = inr resp ∧
    ¬ (400 ≤ status_code resp < 600) ∧
    parse_patch env_ok (text resp) = inr patch ∧
    dom patch_a_c = dom patch ∧
    ∀ file changes, patch !! file = Some changes →
      patch_a_c !! file = Some (default [] (touched changes) ++ default [] (added changes)).
Proof.
  apply (load_hgmo_patch_result env_ok diff_abc (world_of db_two) patch_a_c).
  vm_compute. reflexivity.
Defined.

(** ** The classifier against the parser's output *)

(** X5. Against the lines that [load_hgmo_patch] makes of a parsed patch, a
    link is classified in-patch exactly when the parser reports the issue's
    file and either the issue has no line or one of the lines
    line .. line + nb_lines - 1 is among the touched or the added lines of
    that file. *)
Theorem detect_in_patch_on_parsed_patch (issue_link : IssueLink)
    (patch : gmap string FileChanges) :
  in_patch
    (detect_in_patch issue_link
       ((λ d, default [] (touched d) ++ default [] (added d)) <$> patch)) = Some true ↔
  ∃ changes, patch !! path (issue issue_link) = Some changes ∧
    (line (issue issue_link) = None ∨
     ∃ ln x, line (issue issue_link) = Some ln ∧
             ln ≤ x < ln + nb_lines (issue issue_link) ∧
             (x ∈ default [] (touched changes) ∨ x ∈ default [] (added changes))).
Proof.
  unfold detect_in_patch. rewrite lookup_fmap.
  destruct (patch !! path (issue issue_link)) as [changes|]; simpl.
  - destruct (line (issue issue_link)) as [ln|]; simpl.
    + split.
      * intros [= Hb]. apply chunk_meets_iff in Hb as (x & Hx & Hin).
        exists changes. split; [done|]. right. exists ln, x.
        by apply elem_of_app in Hin.
      * intros (changes' & [= <-] & [? | (ln' & x & [= <-] & Hx & Hin)]); [done|].
        f_equal. apply chunk_meets_iff. exists x. by rewrite elem_of_app.
    + split; [|done]. intros _. exists changes. by eauto.
  - split; [done|]. by intros (changes & ? & _).
Qed.

(** X6. An issue with a line and a line count of zero or less covers no
    line: it is classified out of the patch whatever the patch changed, its
    own line included. *)
Theorem detect_in_patch_empty_range (issue_link : IssueLink) (lines : gmap string (list Z))
    (ln : Z) :
  line (issue issue_link) = Some ln →
  nb_lines (issue issue_link) ≤ 0 →
  in_patch (detect_in_patch issue_link lines) = Some false.
Proof.
  intros Hline Hn.
  destruct (lines !! path (issue issue_link)) as [changed|] eqn:Hfile.
  - rewrite (detect_in_patch_lines _ _ _ _ Hfile Hline). simpl. f_equal.
    apply not_true_is_false. rewrite chunk_meets_iff. intros (x & Hx & _). lia.
  - by rewrite detect_in_patch_absent.
Qed.

Lemma detect_in_patch_empty_range_witness :
  in_patch (detect_in_patch (link_at "a.c" (Some 10) 0) patch_a_c) = Some false.
Proof.
  apply (detect_in_patch_empty_range (link_at "a.c" (Some 10) 0) patch_a_c 10).
  - reflexivity.
  - simpl. lia.
Defined.

(** X7. The classification grows with the patch: when every file of one
    parsed patch is a file of another with at least the same changed lines,
    a link that is in the first patch is in the second. *)
Theorem detect_in_patch_monotone (issue_link : IssueLink)
    (lines lines' : gmap string (list Z)) :
  (∀ file changed, lines !! file = Some changed →
     ∃ changed', lines' !! file = Some changed' ∧ changed ⊆ changed') →
  in_patch (detect_in_patch issue_link lines) = Some true →
  in_patch (detect_in_patch issue_link lines') = Some true.
Proof.
  intros Hincl. unfold detect_in_patch.
  destruct (lines !! path (issue issue_link)) as [changed|] eqn:Hfile; [|done].
  destruct (Hincl _ _ Hfile) as (changed' & -> & Hsub).
  destruct (line (issue issue_link)) as [ln|]; [|done]. simpl.
  intros [= Hb]. f_equal. apply chunk_meets_iff in Hb as (x & Hx & Hin).
  apply chunk_meets_iff. exists x. split; [done|]. by apply Hsub.
Qed.

Lemma detect_in_patch_monotone_witness :
  in_patch (detect_in_patch (link_at "a.c" (Some 8) 3)
              (<["b.c" := [1]]> {[ "a.c" := [10; 11; 12; 20; 30] ]})) = Some true.
Proof.
  apply (detect_in_patch_monotone (link_at "a.c" (Some 8) 3) patch_a_c).
  - intros file changed Hfile. unfold patch_a_c in Hfile.
    apply lookup_singleton_Some in Hfile as [<- <-].
    exists [10; 11; 12; 20; 30]. split; [reflexivity|].
    intros x Hx. apply (elem_of_app [10; 11; 12; 20] [30] x). by left.
  - reflexivity.
Defined.

(** ** The worker, once the patch is loaded *)

Lemma load_link_row_set_in_patch k r b :
  load_link k (row_set_in_patch b r) = set_in_patch (load_link k r) b.
Proof. reflexivity. Qed.

Lemma issue_links_all_NoDup d pk : NoDup (issue_links_all d pk).
Proof. apply (NoDup_fmap_1 id). rewrite issue_links_all_ids. apply NoDup_fst_map_to_list. Qed.

Lemma classified_links_NoDup lines d pk : NoDup (classified_links lines d pk).
Proof.
  apply (NoDup_fmap_1 id).
  rewrite classified_links_ids, issue_links_all_ids. apply NoDup_fst_map_to_list.
Qed.

(** The links of a diff, read back after its batch was written, are the
    links the classifier returned. *)
Lemma issue_links_all_after_batch env diff w lines :
  diff_outcome env (db w) diff = inr lines →
  issue_links_all (db (process_diff env diff w).2) (diff_pk diff)
    ≡ₚ classified_links lines (db w) (diff_pk diff).
Proof.
  intros Hok. apply NoDup_Permutation;
    [apply issue_links_all_NoDup | apply classified_links_NoDup |].
  intros l. rewrite elem_of_issue_links_all. unfold classified_links.
  rewrite list_elem_of_fmap. setoid_rewrite elem_of_issue_links_all.
  setoid_rewrite process_diff_rows. unfold settle. rewrite Hok. split.
  - intros (k & r' & -> & Hk & Hr').
    destruct (issue_link_table (db w) !! k) as [r|] eqn:Hr; [|done].
    simpl in Hk. injection Hk as <-. rewrite classified_row_diff_id in Hr'.
    exists (load_link k r). split; [|by exists k, r].
    unfold classified_row. rewrite decide_True by done.
    rewrite load_link_row_set_in_patch.
    by destruct (detect_in_patch_assigns (load_link k r) lines) as [b ->].
  - intros (l0 & -> & k & r & -> & Hk & Hr).
    exists k, (classified_row lines (diff_pk diff) k r). split; [|split].
    + unfold classified_row. rewrite decide_True by done.
      rewrite load_link_row_set_in_patch.
      by destruct (detect_in_patch_assigns (load_link k r) lines) as [b ->].
    + by rewrite Hk.
    + by rewrite classified_row_diff_id.
Qed.

(** X8. When the work on a diff goes through, every link of that diff holds
    a boolean afterwards, the one the classifier gives for its issue against
    the loaded lines: none is left unknown. *)
Theorem process_diff_classifies_every_link (env : Env) (diff : Diff) (w : World) :
  (process_diff_body env diff w).1 = inr tt →
  ∃ lines,
    (load_hgmo_patch env diff w).1 = inr lines ∧
    ∀ l, l ∈ issue_links_all (db (process_diff env diff w).2) (diff_pk diff) →
         in_patch l = in_patch (detect_in_patch l lines) ∧ ∃ b, in_patch l = Some b.
Proof.
  intros Hbody. rewrite process_diff_body_outcome in Hbody.
  destruct (diff_outcome env (db w) diff) as [e|lines] eqn:Hout; [done|].
  exists lines. split.
  - unfold diff_outcome in Hout.
    rewrite (load_hgmo_patch_world_blind env diff empty_world w) in Hout.
    destruct (load_hgmo_patch env diff w).1 as [e|lines']; [done|].
    by destruct (bulk_update_error _ _); simplify_eq.
  - intros l Hl. rewrite (issue_links_all_after_batch env diff w lines Hout) in Hl.
    apply list_elem_of_fmap in Hl as (l0 & -> & _).
    destruct (detect_in_patch_assigns l0 lines) as [b Hb]. rewrite Hb.
    rewrite detect_in_patch_set_in_patch, Hb. split; [done | by exists b].
Qed.

Lemma process_diff_classifies_every_link_witness :
  ∃ lines,
    (load_hgmo_patch env_ok diff_def (world_of db_two)).1 = inr lines ∧
    ∀ l, l ∈ issue_links_all (db (process_diff env_ok diff_def (world_of db_two)).2)
               (diff_pk diff_def) →
         in_patch l = in_patch (detect_in_patch l lines) ∧ ∃ b, in_patch l = Some b.
Proof.
  apply (process_diff_classifies_every_link env_ok diff_def (world_of db_two)).
  vm_compute. reflexivity.
Defined.

(** X9. When the patch is loaded, the worker logs how many of the diff's
    links it found in the patch before it writes them. If the write goes
    through, that number is the number of the diff's links that hold true
    in the database afterwards. If the write raises, the log carries the
    count and then the failure, and nothing was written. *)
Theorem found_in_patch_count (env : Env) (diff : Diff) (w : World)
    (lines : gmap string (list Z)) :
  (load_hgmo_patch env diff w).1 = inr lines →
  let found :=
    FoundInPatch
      (length (filter (λ l, in_patch l = Some true)
                 (classified_links lines (db w) (diff_pk diff))))
      (diff_pk diff) in
  match bulk_update_error env (classified_links lines (db w) (diff_pk diff)) with
  | None =>
      log (process_diff env diff w).2 = log (load_hgmo_patch env diff w).2 ++ [found] ∧
      found =
        FoundInPatch
          (length (filter (λ l, in_patch l = Some true)
                     (issue_links_all (db (process_diff env diff w).2) (diff_pk diff))))
          (diff_pk diff)
  | Some e =>
      log (process_diff env diff w).2 =
        log (load_hgmo_patch env diff w).2 ++ [found; FailureOnDiff (diff_pk diff) e] ∧
      db (process_diff env diff w).2 = db w
  end.
Proof.
  intros Hload found.
  assert (Hout : diff_outcome env (db w) diff =
    match bulk_update_error env (classified_links lines (db w) (diff_pk diff)) with
    | Some e => inl e | None => inr lines end).
  { unfold diff_outcome.
    by rewrite (load_hgmo_patch_world_blind env diff empty_world w), Hload. }
  pose proof (issue_links_all_after_batch env diff w lines) as Hperm.
  pose proof (process_diff_db env diff w) as Hdb. rewrite process_diff_body_db in Hdb.
  pose proof (load_hgmo_patch_keeps_db env diff w) as Hkeep.
  unfold process_diff, try_except in *. rewrite process_diff_body_unfold in *.
  destruct (load_hgmo_patch env diff w) as [[e|lines'] w1]; simplify_eq/=.
  rewrite Hkeep in *. fold found in Hperm |- *.
  destruct (bulk_update_error env _) as [e|]; simpl in *.
  - split; [by rewrite <- (assoc_L (++)) | by rewrite Hdb, Hout].
  - split; [done|]. subst found. f_equal. by rewrite (Hperm Hout).
Qed.

Lemma found_in_patch_count_witness :
  log (process_diff env_db_down diff_abc (world_of db_two)).2 =
    log (load_hgmo_patch env_db_down diff_abc (world_of db_two)).2 ++
      [FoundInPatch
         (length (filter (λ l, in_patch l = Some true) (classified_links patch_a_c db_two 1))) 1;
       FailureOnDiff 1 DatabaseError] ∧
  db (process_diff env_db_down diff_abc (world_of db_two)).2 = db_two.
Proof.
  apply (found_in_patch_count env_db_down diff_abc (world_of db_two) patch_a_c).
  vm_compute. reflexivity.
Defined.

(** ** The run: order, requests, selection *)

Lemma settle_all_Permutation env d diffs diffs' k r :
  NoDup (diff_pk <$> diffs) → diffs ≡ₚ diffs' →
  settle_all env d diffs k r = settle_all env d diffs' k r.
Proof.
  intros Hnodup Hperm.
  assert (Hnodup' : NoDup (diff_pk <$> diffs')) by by rewrite <- Hperm.
  destruct (row_diff_id r) as [pk|] eqn:Hr.
  - destruct (decide (pk ∈ diff_pk <$> diffs)) as [Hin|Hout].
    + apply list_elem_of_fmap in Hin as (diff & -> & Hin).
      rewrite (settle_all_own env d diffs diff) by done.
      rewrite (settle_all_own env d diffs' diff); [done|done| |done]. by rewrite <- Hperm.
    + rewrite !settle_all_other; [done| |].
      * intros diff Hin. rewrite Hr. intros [= ->]. apply Hout.
        apply list_elem_of_fmap_2. by rewrite Hperm.
      * intros diff Hin. rewrite Hr. intros [= ->]. apply Hout.
        by apply list_elem_of_fmap_2.
  - rewrite !settle_all_other; [done| |]; intros diff _; by rewrite Hr.
Qed.

(** X10. The order in which the selected diffs are worked on does not
    matter to the database: two runs of the worker over the same diffs, in
    any two orders, leave the same tables. *)
Theorem pool_map_order_irrelevant (env : Env) (diffs diffs' : list Diff) (w : World) :
  NoDup (diff_pk <$> diffs) →
  diffs ≡ₚ diffs' →
  db (pool_map (process_diff env) diffs w).2 = db (pool_map (process_diff env) diffs' w).2.
Proof.
  intros Hnodup Hperm.
  assert (Hnodup' : NoDup (diff_pk <$> diffs')) by by rewrite <- Hperm.
  destruct (pool_map_process_diff env diffs w Hnodup) as (_ & Hd & Hrows).
  destruct (pool_map_process_diff env diffs' w Hnodup') as (_ & Hd' & Hrows').
  destruct (db (pool_map (process_diff env) diffs w).2) as [dt lt].
  destruct (db (pool_map (process_diff env) diffs' w).2) as [dt' lt'].
  simpl in *. f_equal; [congruence|].
  apply map_eq. intros k. rewrite Hrows, Hrows'.
  apply option_fmap_ext. intros r. by apply settle_all_Permutation.
Qed.

Lemma pool_map_order_irrelevant_witness :
  db (pool_map (process_diff env_ok) [diff_abc; diff_def] (world_of db_two)).2 =
  db (pool_map (process_diff env_ok) [diff_def; diff_abc] (world_of db_two)).2.
Proof.
  apply (pool_map_order_irrelevant env_ok [diff_abc; diff_def] [diff_def; diff_abc]).
  - vm_compute. apply NoDup_cons. split; [|apply NoDup_singleton].
    intros Hin. apply list_elem_of_singleton in Hin. discriminate.
  - apply Permutation_swap.
Defined.

Lemma process_diff_requested env diff w :
  requested (process_diff env diff w).2 = requested (load_hgmo_patch env diff w).2.
Proof.
  unfold process_diff, try_except. rewrite process_diff_body_unfold.
  destruct (load_hgmo_patch env diff w) as [[e|lines] w1]; [done|]. simpl.
  by destruct (bulk_update_error _ _).
Qed.

Lemma pool_map_requests env diffs w :
  ∃ urls,
    requested (pool_map (process_diff env) diffs w).2 = requested w ++ urls ∧
    (length urls ≤ 2 * length diffs)%nat ∧
    ∀ u, u ∈ urls → ∃ diff, diff ∈ diffs ∧ (u = json_rev_url diff ∨ ∃ rev, u = raw_rev_url diff rev).
Proof.
  revert w. induction diffs as [|diff diffs IH]; intros w.
  { exists []. simpl. rewrite app_nil_r. split; [done|]. split; [done|].
    by intros u ?%elem_of_nil. }
  simpl. unfold bind.
  pose proof (process_diff_requested env diff w) as Hreq.
  destruct (load_hgmo_patch_trace env diff w) as (urls1 & Hurls1 & _ & _ & Hcase).
  pose proof (process_diff_returns env diff w) as Hret.
  destruct (process_diff env diff w) as [[e|[]] w1]; simpl in *; [done|].
  destruct (IH w1) as (urls & Hurls & Hlen & Hof).
  exists (urls1 ++ urls). split; [|split].
  - by rewrite Hurls, Hreq, Hurls1, (assoc_L (++)).
  - rewrite length_app. destruct Hcase as [-> | [rev ->]]; simpl; lia.
  - intros u [Hu|Hu]%elem_of_app.
    + exists diff. split; [by left|].
      destruct Hcase as [-> | [rev ->]].
      * apply list_elem_of_singleton in Hu as ->. by left.
      * apply elem_of_cons in Hu as [-> | Hu]; [by left|].
        apply list_elem_of_singleton in Hu as ->. right. by exists rev.
    + destruct (Hof u Hu) as (diff' & Hin & Hcase'). exists diff'. split; [by right | done].
Qed.

(** X11. A run of the command makes at most two requests for each selected
    diff and none for any other: every URL it requests is the json-rev URL
    or a raw-rev URL of a selected diff's repository. *)
Theorem handle_requests_bound (env : Env) (w : World) :
  ∃ urls,
    requested (handle env w).2 = requested w ++ urls ∧
    (length urls ≤ 2 * length (pending_diffs (db w)))%nat ∧
    ∀ u, u ∈ urls →
      ∃ diff, diff ∈ pending_diffs (db w) ∧
              (u = json_rev_url diff ∨ ∃ rev, u = raw_rev_url diff rev).
Proof.
  rewrite handle_unfold.
  exact (pool_map_requests env (pending_diffs (db w)) w).
Qed.

(** X12. When every diff of the table has links and none of them is
    unknown, the command selects nothing and the run is silent: it requests
    nothing, emits no log record (the count of selected diffs goes to
    [logger.debug], below the configured level) and leaves the database as
    it was. *)
Theorem handle_without_unknown_links (env : Env) (w : World) :
  (∀ k row, diff_table (db w) !! k = Some row →
     issue_links_all (db w) k ≠ [] ∧
     ∀ l, l ∈ issue_links_all (db w) k → in_patch l ≠ None) →
  pending_diffs (db w) = [] ∧ handle env w = (inr tt, w).
Proof.
  intros Hdone.
  assert (Hnone : pending_diffs (db w) = []).
  { destruct (pending_diffs (db w)) as [|diff diffs] eqn:Hp; [done|]. exfalso.
    assert (Hin : diff ∈ pending_diffs (db w)) by (rewrite Hp; left).
    apply elem_of_pending_diffs in Hin as (k & row & -> & Hk & Hcase).
    destruct (Hdone k row Hk) as [Hsome Hall].
    destruct Hcase as [Hnil | (l & Hl & Hnull)]; [done | by apply (Hall l)]. }
  split; [done|]. rewrite handle_unfold, Hnone. reflexivity.
Qed.

Lemma handle_without_unknown_links_witness :
  pending_diffs db_classified = [] ∧
  handle env_ok (world_of db_classified) = (inr tt, world_of db_classified).
Proof.
  apply (handle_without_unknown_links env_ok (world_of db_classified)).
  intros k row Hk.
  assert (Hcase : k = 1 ∨ k = 2).
  { simpl in Hk. unfold db_classified in Hk. simpl in Hk.
    apply lookup_insert_Some in Hk as [[<- _] | [_ Hk]]; [by left|].
    apply lookup_singleton_Some in Hk as [<- _]. by right. }
  destruct Hcase as [-> | ->].
  - split; [by vm_compute|]. intros l Hl. apply list_elem_of_In in Hl. vm_compute in Hl.
    destruct Hl as [<- | []]. discriminate.
  - split; [by vm_compute|]. intros l Hl. apply list_elem_of_In in Hl. vm_compute in Hl.
    destruct Hl as [<- | []]. discriminate.
Defined.

Lemma StronglySorted_strict diffs :
  StronglySorted id_le diffs → NoDup (diff_pk <$> diffs) →
  StronglySorted (λ a b, diff_pk a < diff_pk b) diffs.
Proof.
  induction 1 as [|diff diffs Hsorted IH Hall]; [constructor|].
  rewrite fmap_cons, NoDup_cons. intros [Hnotin Hnodup]. constructor; [by apply IH|].
  rewrite Forall_forall in Hall |- *. intros diff' Hin.
  specialize (Hall diff' Hin). unfold id_le in Hall.
  assert (diff_pk diff ≠ diff_pk diff'); [|lia].
  intros Heq. apply Hnotin. rewrite Heq. by apply list_elem_of_fmap_2.
Qed.

(** X13. The selection lists, by strictly increasing identifier, the diffs
    of the table that have a link whose [in_patch] is null and the diffs
    that have no link at all, and no other diff. *)
Theorem pending_diffs_characterised (d : DB) :
  StronglySorted (λ a b, diff_pk a < diff_pk b) (pending_diffs d) ∧
  ∀ diff, diff ∈ pending_diffs d ↔
    ∃ k row, diff = load_diff k row ∧ diff_table d !! k = Some row ∧
      (issue_links_all d k = [] ∨ ∃ l, l ∈ issue_links_all d k ∧ in_patch l = None).
Proof.
  split.
  - apply StronglySorted_strict; [apply pending_diffs_sorted | apply pending_diffs_NoDup].
  - apply elem_of_pending_diffs.
Qed.

(** X14. After a run in which the work on every selected diff went through,
    a second run, whatever the remote service then answers, changes no row
    of the link table; the diffs it selects are diffs without any link. *)
Theorem second_run_changes_no_link (env env2 : Env) (w : World) :
  (∀ diff, diff ∈ pending_diffs (db w) → (process_diff_body env diff w).1 = inr tt) →
  issue_link_table (db (handle env2 (handle env w).2).2) =
    issue_link_table (db (handle env w).2) ∧
  ∀ diff, diff ∈ pending_diffs (db (handle env w).2) →
          issue_links_all (db (handle env w).2) (diff_pk diff) = [].
Proof.
  intros Hok.
  destruct (second_run_keeps_the_links env env2 w) as [Hbare Hsame]; [|done].
  intros diff Hin. specialize (Hok diff Hin). rewrite process_diff_body_outcome in Hok.
  destruct (diff_outcome env (db w) diff) as [e|lines]; [done | by exists lines].
Qed.

Lemma second_run_changes_no_link_witness :
  issue_link_table (db (handle env_abc_down (handle env_ok (world_of db_two)).2).2) =
    issue_link_table (db (handle env_ok (world_of db_two)).2) ∧
  ∀ diff, diff ∈ pending_diffs (db (handle env_ok (world_of db_two)).2) →
          issue_links_all (db (handle env_ok (world_of db_two)).2) (diff_pk diff) = [].
Proof.
  apply (second_run_changes_no_link env_ok env_abc_down (world_of db_two)).
  intros diff Hin. apply list_elem_of_In in Hin. vm_compute in Hin.
  destruct Hin as [<- | [<- | []]]; vm_compute; reflexivity.
Defined.

(** * Further properties of the API *)

(** ** The per-check listing, [IssueCheckDetails.get_queryset] *)

Lemma List_filter_StronglySorted {A} (R : relation A) (f : A → bool) (l : list A) :
  StronglySorted R l → StronglySorted R (List.filter f l).
Proof.
  induction 1 as [|x l Hsorted IH Hall]; simpl; [constructor|].
  destruct (f x); [|done]. constructor; [done|].
  rewrite Forall_forall in Hall |- *. intros y Hy.
  apply Hall. apply list_elem_of_In in Hy. apply filter_In in Hy as [Hy _].
  by apply list_elem_of_In.
Qed.

(** X15. In the per-check listing, [publishable=true] and
    [publishable=false] split the listing of [publishable=all] in two:
    every issue listed for "all" is listed for exactly one of the two, and
    neither lists anything else. When one of the three requests fails (the
    [since] parameter does not parse) all three fail alike. *)
Theorem publishable_true_false_partition (strptime : string → option Z)
    (kwargs : Api.Kwargs) (query_params : gmap string string) (issues : list Api.Issue) :
  match Api.get_queryset strptime kwargs (<["publishable" := "true"]> query_params) issues,
        Api.get_queryset strptime kwargs (<["publishable" := "false"]> query_params) issues,
        Api.get_queryset strptime kwargs (<["publishable" := "all"]> query_params) issues with
  | inr yes, inr no, inr all =>
      ∀ i, (i ∈ yes → i ∈ all) ∧ (i ∈ no → i ∈ all) ∧
           (i ∈ all → (i ∈ yes ↔ i ∉ no))
  | inl e1, inl e2, inl e3 => e1 = e2 ∧ e2 = e3
  | _, _, _ => False
  end.
Proof.
  unfold Api.get_queryset.
  rewrite !lookup_insert_eq, !lookup_insert_ne by done. simpl.
  destruct (query_params !! "since") as [since|]; [destruct (strptime since) as [day|]|];
    try done; intros i; rewrite !elem_of_remove_dups;
    unfold Api.qs_filter, Api.qs_exclude; rewrite ?elem_of_List_filter;
    destruct (Api.sql_where _ i); simpl; intuition congruence.
Qed.

(** X16. The per-check listing refuses a [publishable] parameter that is
    not "true", "false" or "all" in some mix of cases, whatever the other
    parameters; with an acceptable or absent [publishable], a [since]
    parameter that does not parse is refused. *)
Theorem check_listing_refuses_bad_parameters (strptime : string → option Z)
    (kwargs : Api.Kwargs) (query_params : gmap string string) (issues : list Api.Issue) :
  (∀ v, query_params !! "publishable" = Some v →
        Api.lower v ≠ "true" → Api.lower v ≠ "false" → Api.lower v ≠ "all" →
        Api.get_queryset strptime kwargs query_params issues =
          inl (Api.APIException "publishable can only be true, false or all")) ∧
  (∀ since, query_params !! "since" = Some since → strptime since = None →
        Api.lower (default "true" (query_params !! "publishable")) ∈ ["true"; "false"; "all"] →
        Api.get_queryset strptime kwargs query_params issues =
          inl (Api.APIException "invalid since date - should be YYYY-MM-DD")).
Proof.
  split.
  - intros v Hv Htrue Hfalse Hall. unfold Api.get_queryset. rewrite Hv. simpl.
    rewrite !bool_decide_eq_false_2 by done. by rewrite bool_decide_eq_true_2.
  - intros since Hsince Hparse Hvalid. unfold Api.get_queryset. rewrite Hsince, Hparse.
    set (p := Api.lower _) in *.
    repeat (apply elem_of_cons in Hvalid as [-> | Hvalid]); [done|done|done|].
    by apply elem_of_nil in Hvalid.
Qed.

Lemma check_listing_refuses_bad_parameters_witness :
  Api.get_queryset (λ _, None) (Api.mkKwargs "mozilla-central" "clang-tidy" "modernize-use-auto")
    (<["since" := "yesterday"]> {[ "publishable" := "Maybe" ]})
    [issue_in_patch; issue_error] =
  inl (Api.APIException "publishable can only be true, false or all").
Proof.
  destruct (check_listing_refuses_bad_parameters (λ _, None)
    (Api.mkKwargs "mozilla-central" "clang-tidy" "modernize-use-auto")
    (<["since" := "yesterday"]> {[ "publishable" := "Maybe" ]})
    [issue_in_patch; issue_error]) as [Hbad _].
  apply (Hbad "Maybe"); [reflexivity | discriminate | discriminate | discriminate].
Defined.

(** X17. What the per-check listing returns has no duplicate and is ordered
    newest first; every issue in it is an issue of the table found by the
    analyzer and the check of the URL, linked to a revision whose head
    repository is the repository of the URL, and, when [since] is given,
    created on that day or later. *)
Theorem check_listing_postcondition (strptime : string → option Z)
    (kwargs : Api.Kwargs) (query_params : gmap string string) (issues listed : list Api.Issue) :
  Api.get_queryset strptime kwargs query_params issues = inr listed →
  NoDup listed ∧
  StronglySorted Api.newest_first listed ∧
  ∀ i, i ∈ listed →
    i ∈ issues ∧
    Api.kw_repository kwargs ∈ Api.head_repositories i ∧
    Api.analyzer i = Api.kw_analyzer kwargs ∧
    Api.analyzer_check i = Api.kw_check kwargs ∧
    ∀ since, query_params !! "since" = Some since →
             ∃ day, strptime since = Some day ∧ day ≤ Api.created i.
Proof.
  unfold Api.get_queryset.
  set (base := merge_sort Api.newest_first _).
  assert (Hbase : StronglySorted Api.newest_first base)
    by (apply StronglySorted_merge_sort; apply _).
  assert (Hof : ∀ i, i ∈ base → i ∈ issues ∧
                  Api.kw_repository kwargs ∈ Api.head_repositories i ∧
                  Api.analyzer i = Api.kw_analyzer kwargs ∧
                  Api.analyzer_check i = Api.kw_check kwargs).
  { intros i Hi. by apply elem_of_check_base in Hi. }
  set (chosen := if bool_decide (Api.lower _ = "true") then _ else _).
  assert (Hchosen : ∀ qs, chosen = inr qs →
            StronglySorted Api.newest_first qs ∧ ∀ i, i ∈ qs → i ∈ base).
  { intros qs. subst chosen. unfold Api.qs_filter, Api.qs_exclude.
    repeat case_bool_decide; intros [= <-]; (split; [|intros i]);
      try (by apply List_filter_StronglySorted); try done;
      by intros [? _]%elem_of_List_filter. }
  destruct chosen as [e|qs]; [done|]. destruct (Hchosen qs eq_refl) as [Hsorted Hsub].
  destruct (query_params !! "since") as [since|];
    [destruct (strptime since) as [day|] eqn:Hparse|];
    [|done|]; intros [= <-]; (split; [apply NoDup_remove_dups|]);
    (split; [apply remove_dups_StronglySorted; try done;
             by apply List_filter_StronglySorted|]);
    intros i Hi; rewrite elem_of_remove_dups in Hi.
  - apply elem_of_List_filter in Hi as [Hi Hday]. apply bool_decide_eq_true in Hday.
    destruct (Hof i (Hsub i Hi)) as (? & ? & ? & ?). repeat (split; [done|]).
    intros since' [= <-]. by exists day.
  - destruct (Hof i (Hsub i Hi)) as (? & ? & ? & ?). by repeat (split; [done|]).
Qed.

Lemma check_listing_postcondition_witness :
  NoDup [issue_error; issue_in_patch] ∧
  StronglySorted Api.newest_first [issue_error; issue_in_patch] ∧
  ∀ i, i ∈ [issue_error; issue_in_patch] →
    i ∈ [issue_in_patch; issue_error; issue_outside; issue_unknown] ∧
    "mozilla-central" ∈ Api.head_repositories i ∧
    Api.analyzer i = "clang-tidy" ∧
    Api.analyzer_check i = "modernize-use-auto" ∧
    ∀ since, (∅ : gmap string string) !! "since" = Some since →
             ∃ day, (λ _ : string, @None Z) since = Some day ∧ day ≤ Api.created i.
Proof.
  apply (check_listing_postcondition (λ _, None)
    (Api.mkKwargs "mozilla-central" "clang-tidy" "modernize-use-auto") ∅
    [issue_in_patch; issue_error; issue_outside; issue_unknown]).
  vm_compute. reflexivity.
Defined.

(** ** The listing of diffs, [DiffViewSet.get_queryset] *)

Lemma Count_le (q : Api.Q) (issues : list Api.Issue) :
  (Api.Count (Some q) issues ≤ Api.Count None issues)%nat.
Proof.
  unfold Api.Count, Api.qs_filter.
  induction issues as [|i issues IH]; simpl; [done|].
  destruct (Api.sql_where q i); simpl; lia.
Qed.

(** X18. Of the counts that the listing of diffs attaches to a diff, the
    number of publishable issues is at most the number of issues, and the
    errors and the warnings together are at most the number of issues. *)
Theorem diff_counts_bounds (issues : list Api.Issue) :
  (Api.nb_issues_publishable (Api.annotate issues) ≤ Api.nb_issues (Api.annotate issues))%nat ∧
  (Api.nb_errors (Api.annotate issues) + Api.nb_warnings (Api.annotate issues)
     ≤ Api.nb_issues (Api.annotate issues))%nat.
Proof.
  split; [apply Count_le|].
  unfold Api.annotate, Api.Count, Api.qs_filter, Api.sql_where. simpl.
  induction issues as [|i issues IH]; simpl; [done|].
  repeat case_bool_decide; simpl; try lia. congruence.
Qed.

(** X19. Every error counts as publishable: the number of errors attached
    to a diff is at most its number of publishable issues, whatever the
    [in_patch] of the errors. *)
Theorem diff_errors_are_publishable (issues : list Api.Issue) :
  (Api.nb_errors (Api.annotate issues) ≤ Api.nb_issues_publishable (Api.annotate issues))%nat.
Proof.
  unfold Api.annotate, Api.Count, Api.qs_filter, Api.diff_publishable_filter,
    Api.sql_where, Api.LEVEL_ERROR. simpl.
  induction issues as [|i issues IH]; simpl; [done|].
  destruct (Api.in_patch i) as [[]|]; case_bool_decide; simpl; lia.
Qed.

(** The rows that reach the last step of the listing, whatever the
    [issues] parameter. *)
Lemma diff_listing_rows (icontains_int : Z → string → bool)
    (icontains : string → string → bool) (today : Z)
    (query_params : gmap string string) (table : list DiffViews.Diff)
    (dc : DiffViews.Diff * Api.DiffCounts) :
  dc ∈ DiffViews.get_queryset icontains_int icontains today query_params table →
  dc.1 ∈ table ∧
  dc.2 = Api.annotate (DiffViews.issues dc.1) ∧
  today - 90 ≤ DiffViews.created dc.1 ∧
  (∀ r, query_params !! "repository" = Some r →
        DiffViews.base_repository (DiffViews.revision dc.1) = Some r ∨
        DiffViews.head_repository (DiffViews.revision dc.1) = Some r ∨
        DiffViews.repository dc.1 = Some r) ∧
  (∀ q, query_params !! "search" = Some q →
        DiffViews.sql_true (DiffViews.search_query icontains_int icontains q dc.1) = true).
Proof.
  unfold DiffViews.get_queryset.
  set (sorted := merge_sort DiffViews.highest_id_first _).
  assert (Hsorted : dc ∈ sorted →
    dc.1 ∈ table ∧ dc.2 = Api.annotate (DiffViews.issues dc.1) ∧
    today - 90 ≤ DiffViews.created dc.1).
  { subst sorted. rewrite merge_sort_Permutation.
    intros (d & -> & Hd)%list_elem_of_fmap. apply elem_of_List_filter in Hd as [Hd Hday].
    by apply bool_decide_eq_true in Hday. }
  set (by_repo := match query_params !! "repository" with Some _ => _ | None => _ end).
  assert (Hrepo : dc ∈ by_repo → dc ∈ sorted ∧
    ∀ r, query_params !! "repository" = Some r →
         DiffViews.base_repository (DiffViews.revision dc.1) = Some r ∨
         DiffViews.head_repository (DiffViews.revision dc.1) = Some r ∨
         DiffViews.repository dc.1 = Some r).
  { subst by_repo. destruct (query_params !! "repository") as [r|]; [|done].
    intros [Hin Hr]%elem_of_List_filter. split; [done|]. intros ? [= <-].
    unfold DiffViews.repository_filter, DiffViews.sql_eq in Hr.
    destruct (DiffViews.base_repository _) as [b|], (DiffViews.head_repository _) as [h|],
      (DiffViews.repository _) as [o|]; simpl in Hr;
      repeat case_bool_decide; simplify_eq/=; auto. }
  set (by_search := match query_params !! "search" with Some _ => _ | None => _ end).
  assert (Hsearch : dc ∈ by_search → dc ∈ by_repo ∧
    ∀ q, query_params !! "search" = Some q →
         DiffViews.sql_true (DiffViews.search_query icontains_int icontains q dc.1) = true).
  { subst by_search. destruct (query_params !! "search") as [q|]; [|done].
    intros [Hin Hq]%elem_of_List_filter. split; [done|]. by intros ? [= <-]. }
  intros Hin.
  assert (Hlast : dc ∈ by_search).
  { repeat case_bool_decide; try done; by apply elem_of_List_filter in Hin as [? _]. }
  destruct (Hsearch Hlast) as [Hr Hq]. destruct (Hrepo Hr) as [Hs Hrepo'].
  destruct (Hsorted Hs) as (? & ? & ?). done.
Qed.

(** X20. The listing of diffs returns rows of the table not older than
    ninety days, each with the counts of its own issues, by decreasing
    identifier; with a [repository] parameter every row has that slug as
    its revision's base repository, its revision's head repository or its
    own repository; and with [issues] set to "any", "publishable" or "no"
    every row has, in that order, some issue, some publishable issue, no
    issue. *)
Theorem diff_listing_postcondition (icontains_int : Z → string → bool)
    (icontains : string → string → bool) (today : Z)
    (query_params : gmap string string) (table : list DiffViews.Diff) :
  StronglySorted DiffViews.highest_id_first
    (DiffViews.get_queryset icontains_int icontains today query_params table) ∧
  ∀ dc, dc ∈ DiffViews.get_queryset icontains_int icontains today query_params table →
    dc.1 ∈ table ∧
    dc.2 = Api.annotate (DiffViews.issues dc.1) ∧
    today - 90 ≤ DiffViews.created dc.1 ∧
    (∀ r, query_params !! "repository" = Some r →
          DiffViews.base_repository (DiffViews.revision dc.1) = Some r ∨
          DiffViews.head_repository (DiffViews.revision dc.1) = Some r ∨
          DiffViews.repository dc.1 = Some r) ∧
    (query_params !! "issues" = Some "any" → DiffViews.issues dc.1 ≠ []) ∧
    (query_params !! "issues" = Some "publishable" →
       ∃ i, i ∈ DiffViews.issues dc.1 ∧ Api.publishable i) ∧
    (query_params !! "issues" = Some "no" → DiffViews.issues dc.1 = []).
Proof.
  split.
  - unfold DiffViews.get_queryset.
    set (sorted := merge_sort DiffViews.highest_id_first _).
    assert (Hsorted : StronglySorted DiffViews.highest_id_first sorted)
      by (apply StronglySorted_merge_sort; apply _).
    destruct (query_params !! "repository"), (query_params !! "search");
      repeat case_bool_decide; repeat apply List_filter_StronglySorted; done.
  - intros dc Hin.
    destruct (diff_listing_rows _ _ _ _ _ _ Hin) as (Htable & Hcounts & Hday & Hrepo & _).
    do 4 (split; [done|]).
    unfold DiffViews.get_queryset in Hin. revert Hin.
    set (by_search := match query_params !! "search" with Some _ => _ | None => _ end).
    intros Hin. split; [|split]; intros Hissues; rewrite Hissues in Hin.
    + rewrite bool_decide_eq_true_2 in Hin by done.
      apply elem_of_List_filter in Hin as [_ Hn]. apply bool_decide_eq_true in Hn.
      rewrite Hcounts in Hn. intros Hnil. rewrite Hnil in Hn. cbv in Hn. lia.
    + rewrite bool_decide_eq_false_2, bool_decide_eq_true_2 in Hin by done.
      apply elem_of_List_filter in Hin as [_ Hn]. apply bool_decide_eq_true in Hn.
      rewrite Hcounts in Hn.
      change (0 < length (List.filter (Api.sql_where Api.diff_publishable_filter)
                            (DiffViews.issues dc.1)))%nat in Hn.
      destruct (List.filter (Api.sql_where Api.diff_publishable_filter)
                  (DiffViews.issues dc.1)) as [|i found] eqn:Hfound; [simpl in Hn; lia|].
      assert (Hi : i ∈ List.filter (Api.sql_where Api.diff_publishable_filter)
                         (DiffViews.issues dc.1)) by (rewrite Hfound; left).
      apply elem_of_List_filter in Hi as [Hi Hpub]. exists i. split; [done|].
      by apply sql_where_publishable.
    + rewrite !bool_decide_eq_false_2, bool_decide_eq_true_2 in Hin by done.
      apply elem_of_List_filter in Hin as [_ Hn]. apply bool_decide_eq_true in Hn.
      rewrite Hcounts in Hn.
      change (length (DiffViews.issues dc.1) = 0%nat) in Hn.
      by apply length_zero_iff_nil in Hn.
Qed.

Lemma diff_listing_postcondition_witness :
  (listed_diff_with_error, Api.annotate [issue_error; issue_outside]) ∈
    DiffViews.get_queryset (λ _ _, false) (λ _ _, false) 120
      {[ "issues" := "publishable" ]}
      [listed_diff_with_error; listed_diff_clean; listed_diff_old] ∧
  ∃ i, i ∈ [issue_error; issue_outside] ∧ Api.publishable i.
Proof.
  destruct (diff_listing_postcondition (λ _ _, false) (λ _ _, false) 120
    {[ "issues" := "publishable" ]}
    [listed_diff_with_error; listed_diff_clean; listed_diff_old]) as [_ Hrows].
  assert (Hin : (listed_diff_with_error, Api.annotate [issue_error; issue_outside]) ∈
    DiffViews.get_queryset (λ _ _, false) (λ _ _, false) 120
      {[ "issues" := "publishable" ]}
      [listed_diff_with_error; listed_diff_clean; listed_diff_old]).
  { apply list_elem_of_In. vm_compute. auto. }
  split; [exact Hin|].
  destruct (Hrows _ Hin) as (_ & _ & _ & _ & _ & Hpub & _). apply Hpub. reflexivity.
Defined.

Lemma diff_listing_by_issues (icontains_int : Z → string → bool)
    (icontains : string → string → bool) (today : Z)
    (query_params : gmap string string) (table : list DiffViews.Diff) (v : string) :
  DiffViews.get_queryset icontains_int icontains today (<["issues" := v]> query_params) table =
    let unfiltered :=
      DiffViews.get_queryset icontains_int icontains today (delete "issues" query_params) table in
    if bool_decide (v = "any")
    then List.filter (λ dc, bool_decide (0 < Api.nb_issues dc.2)%nat) unfiltered
    else if bool_decide (v = "publishable")
    then List.filter (λ dc, bool_decide (0 < Api.nb_issues_publishable dc.2)%nat) unfiltered
    else if bool_decide (v = "no")
    then List.filter (λ dc, bool_decide (Api.nb_issues dc.2 = 0%nat)) unfiltered
    else unfiltered.
Proof.
  unfold DiffViews.get_queryset.
  rewrite lookup_insert_eq, lookup_delete_eq, !lookup_insert_ne, !lookup_delete_ne by done.
  simpl. repeat case_bool_decide; simplify_eq; done.
Qed.

(** X21. In the listing of diffs the [issues] parameter only narrows the
    listing: "publishable" lists no diff that "any" does not list, "any"
    and "no" split in two the listing obtained without the parameter, and
    a value other than "any", "publishable" and "no" is ignored. *)
Theorem diff_listing_issues_parameter (icontains_int : Z → string → bool)
    (icontains : string → string → bool) (today : Z)
    (query_params : gmap string string) (table : list DiffViews.Diff) :
  let listing v :=
    DiffViews.get_queryset icontains_int icontains today (<["issues" := v]> query_params) table in
  let unfiltered :=
    DiffViews.get_queryset icontains_int icontains today (delete "issues" query_params) table in
  (∀ dc, dc ∈ listing "publishable" → dc ∈ listing "any") ∧
  (∀ dc, dc ∈ listing "any" ∨ dc ∈ listing "no" → dc ∈ unfiltered) ∧
  (∀ dc, dc ∈ unfiltered → (dc ∈ listing "any" ↔ dc ∉ listing "no")) ∧
  (∀ v, v ≠ "any" → v ≠ "publishable" → v ≠ "no" → listing v = unfiltered).
Proof.
  intros listing unfiltered.
  assert (Hcounts : ∀ dc, dc ∈ unfiltered → dc.2 = Api.annotate (DiffViews.issues dc.1)).
  { intros dc Hin. by apply diff_listing_rows in Hin as (_ & ? & _). }
  assert (Hany : listing "any" =
    List.filter (λ dc, bool_decide (0 < Api.nb_issues dc.2)%nat) unfiltered)
    by apply diff_listing_by_issues.
  assert (Hpub : listing "publishable" =
    List.filter (λ dc, bool_decide (0 < Api.nb_issues_publishable dc.2)%nat) unfiltered)
    by apply diff_listing_by_issues.
  assert (Hno : listing "no" =
    List.filter (λ dc, bool_decide (Api.nb_issues dc.2 = 0%nat)) unfiltered)
    by apply diff_listing_by_issues.
  rewrite Hany, Hpub, Hno. split; [|split; [|split]].
  - intros dc [Hin Hn]%elem_of_List_filter. apply elem_of_List_filter. split; [done|].
    apply bool_decide_eq_true in Hn. apply bool_decide_eq_true.
    rewrite (Hcounts dc Hin) in Hn |- *.
    pose proof (Count_le Api.diff_publishable_filter (DiffViews.issues dc.1)) as Hle.
    change (0 < Api.Count (Some Api.diff_publishable_filter) (DiffViews.issues dc.1))%nat in Hn.
    change (0 < Api.Count None (DiffViews.issues dc.1))%nat. lia.
  - by intros dc [[? _]%elem_of_List_filter | [? _]%elem_of_List_filter].
  - intros dc Hin. rewrite !elem_of_List_filter, !bool_decide_eq_true. split.
    + intros [_ Hpos] [_ Hzero]. lia.
    + intros Hnot. split; [done|].
      destruct (Api.nb_issues dc.2) eqn:Hn; [|lia]. exfalso. by apply Hnot.
  - intros v Hv1 Hv2 Hv3. subst listing. cbv beta.
    rewrite diff_listing_by_issues. simpl. by rewrite !bool_decide_eq_false_2.
Qed.

(** ** The issues of a repository, [IssueList.get_queryset] *)

Ltac issue_list_cases strptime query_params :=
  unfold IssueListView.get_queryset;
  destruct (IssueListView.objects_get _ _) as [repo| |] eqn:Hget;
  [ destruct (IssueListView.truthy (query_params !! "date")) as [date|] eqn:Hdate;
    [destruct (strptime date) as [day|] eqn:Hparse|]
  | destruct (IssueListView.truthy (query_params !! "date")) as [date|] eqn:Hdate;
    [destruct (strptime date) as [day|] eqn:Hparse|]
  | ];
  try (destruct (query_params !! "revision_changeset") as [c|] eqn:Hrev;
       [destruct (decide (String.length c = 40%nat)) as [Hlen|Hlen];
        [rewrite (bool_decide_eq_false_2 (String.length c ≠ 40%nat)) by (by intros ?)
        |rewrite (bool_decide_eq_true_2 (String.length c ≠ 40%nat)) by done]|]);
  cbn [IssueListView.append_error].



(** X22. When [get_queryset] raises a validation error, the errors it
    carries are all the complaints and only them: there is an entry for the
    slug exactly when no repository has it, for the date exactly when the
    [date] parameter is set and does not parse, and for the changeset
    exactly when [revision_changeset] is given with a length other than 40;
    at least one of them is there, and each carries one message. *)
Theorem issue_list_validation_errors (strptime : string → option Z) (repo_slug : string)
    (query_params : gmap string string) (repositories : list IssueListView.Repository)
    (revisions_table : list IssueListView.Revision) (issues : list IssueListView.Issue)
    (errors : gmap string (list string)) :
  IssueListView.get_queryset strptime repo_slug query_params repositories revisions_table issues
    = inl (IssueListView.ValidationError errors) →
  errors ≠ ∅ ∧
  (is_Some (errors !! "repo_slug") ↔
     IssueListView.objects_get repositories repo_slug = IssueListView.DoesNotExist) ∧
  (is_Some (errors !! "date") ↔
     ∃ date, IssueListView.truthy (query_params !! "date") = Some date ∧ strptime date = None) ∧
  (is_Some (errors !! "revision_changeset") ↔
     ∃ c, query_params !! "revision_changeset" = Some c ∧ String.length c ≠ 40%nat) ∧
  (∀ key msgs, errors !! key = Some msgs →
     key ∈ ["repo_slug"; "date"; "revision_changeset"] ∧ length msgs = 1%nat).
Proof.
  issue_list_cases strptime query_params; simpl; try done;
    case_bool_decide as Herrors; try done; intros [= <-];
    (split; [done|]);
    (split; [rewrite ?lookup_insert_eq, ?lookup_insert_ne, ?lookup_empty by done;
             split; [try (by intros [? ?]); done | try done; by eauto]|]);
    (split; [rewrite ?lookup_insert_eq, ?lookup_insert_ne, ?lookup_empty by done;
             split; [try (by intros [? ?]); by eauto
                    | try (by eauto); intros (? & ? & ?); simplify_eq]|]);
    (split; [rewrite ?lookup_insert_eq, ?lookup_insert_ne, ?lookup_empty by done;
             split; [try (by intros [? ?]); by eauto
                    | try (by eauto); intros (? & ? & ?); simplify_eq]|]);
    intros key msgs Hkey; unfold IssueListView.append_error in Hkey;
    repeat (apply lookup_insert_Some in Hkey as [[<- <-] | [_ Hkey]];
            [split; [set_solver | reflexivity]|]);
    by rewrite lookup_empty in Hkey.
Qed.

Lemma issue_list_validation_errors_witness :
  errors_slug_and_changeset ≠ ∅ ∧
  (is_Some (errors_slug_and_changeset !! "repo_slug") ↔
     IssueListView.objects_get [repo_mc] "no-such-repo" = IssueListView.DoesNotExist) ∧
  (is_Some (errors_slug_and_changeset !! "date") ↔
     ∃ date, IssueListView.truthy
               (({[ "revision_changeset" := "abc" ]} : gmap string string) !! "date") = Some date ∧
             strptime_two_days date = None) ∧
  (is_Some (errors_slug_and_changeset !! "revision_changeset") ↔
     ∃ c, ({[ "revision_changeset" := "abc" ]} : gmap string string) !! "revision_changeset"
            = Some c ∧ String.length c ≠ 40%nat) ∧
  (∀ key msgs, errors_slug_and_changeset !! key = Some msgs →
     key ∈ ["repo_slug"; "date"; "revision_changeset"] ∧ length msgs = 1%nat).
Proof.
  apply (issue_list_validation_errors strptime_two_days "no-such-repo"
    {[ "revision_changeset" := "abc" ]} [repo_mc] [rev_monday; rev_tuesday]
    [listed_issue_monday; listed_issue_tuesday] errors_slug_and_changeset).
  vm_compute. reflexivity.
Defined.

(** The revisions of a sorted list end with a latest one. *)
Lemma last_of_sorted {A} (R : relation A) (l : list A) (x : A) :
  StronglySorted R l → last l = Some x → x ∈ l ∧ ∀ y, y ∈ l → y = x ∨ R y x.
Proof.
  intros Hsorted [l' ->]%last_Some. split.
  - apply elem_of_app. right. by left.
  - intros y [Hy | Hy%list_elem_of_singleton]%elem_of_app; [right | by left].
    apply (StronglySorted_app_1_elem_of R l' [x]); [done|done|by left].
Qed.

(** X26. The revision that a date selects is a revision of the repository
    created in the two days before the date, and no revision of the
    repository in those two days was created later; when the repository
    has no revision in those two days, none is selected. *)
Theorem revision_of_date_is_latest (repo : IssueListView.Repository) (date : Z)
    (revisions_table : list IssueListView.Revision) :
  let in_window r :=
    IssueListView.head_repository r = Some (IssueListView.repo_id repo) ∧
    date - IssueListView.days 2 ≤ IssueListView.created r < date in
  match IssueListView.revision_of_date repo date revisions_table with
  | Some rev =>
      rev ∈ revisions_table ∧ in_window rev ∧
      ∀ r, r ∈ revisions_table → in_window r →
           IssueListView.created r ≤ IssueListView.created rev
  | None => ∀ r, r ∈ revisions_table → ¬ in_window r
  end.
Proof.
  intros in_window. unfold IssueListView.revision_of_date.
  set (f := λ r : IssueListView.Revision, _ && _ && _).
  assert (Hf : ∀ r, f r = true ↔ in_window r).
  { intros r. subst f in_window. simpl.
    rewrite !andb_true_iff, !bool_decide_eq_true. tauto. }
  set (l := merge_sort IssueListView.revision_created_le (List.filter f revisions_table)).
  assert (Hl : ∀ r, r ∈ l ↔ r ∈ revisions_table ∧ in_window r).
  { intros r. subst l. by rewrite merge_sort_Permutation, elem_of_List_filter, Hf. }
  assert (Hsorted : StronglySorted IssueListView.revision_created_le l)
    by (apply StronglySorted_merge_sort; apply _).
  destruct (last l) as [rev|] eqn:Hlast.
  - destruct (last_of_sorted _ l rev Hsorted Hlast) as [Hin Hmax].
    apply Hl in Hin as [Hin Hwin]. do 2 (split; [done|]).
    intros r Hr Hwr. destruct (Hmax r) as [-> | Hle]; [by apply Hl | lia | done].
  - apply last_None in Hlast. intros r Hr Hwr.
    assert (Hrl : r ∈ l) by by apply Hl. rewrite Hlast in Hrl. by apply elem_of_nil in Hrl.
Qed.

Lemma elem_of_repo_path_qs (repo : IssueListView.Repository)
    (query_params : gmap string string) (issues : list IssueListView.Issue)
    (i : IssueListView.Issue) :
  i ∈ match IssueListView.truthy (query_params !! "path") with
      | Some p =>
          List.filter (λ i, bool_decide (IssueListView.path i = p))
            (List.filter (IssueListView.in_repository repo) issues)
      | None => List.filter (IssueListView.in_repository repo) issues
      end ↔
  i ∈ issues ∧ IssueListView.in_repository repo i = true ∧
  ∀ p, IssueListView.truthy (query_params !! "path") = Some p → IssueListView.path i = p.
Proof.
  destruct (IssueListView.truthy (query_params !! "path")) as [p|].
  - rewrite !elem_of_List_filter, bool_decide_eq_true. split.
    + intros [[? ?] ?]. repeat split; try done. by intros ? [= <-].
    + intros (? & ? & Hp). repeat split; try done. by apply Hp.
  - rewrite elem_of_List_filter. split; [|by intros (? & ? & _)].
    intros [? ?]. by repeat split.
Qed.

Lemma truthy_of_length (c : string) :
  String.length c = 40%nat → IssueListView.truthy (Some c) = Some c.
Proof.
  intros Hlen. unfold IssueListView.truthy. rewrite bool_decide_eq_false_2; [done|].
  intros ->. discriminate.
Qed.

(** X25. With a repository that exists, no date, and a
    [revision_changeset] of 40 characters, the listing is exactly the
    issues of the repository (and of the path, when one is given) that are
    linked to a revision with that head changeset: an unknown changeset
    gives the empty listing. *)
Theorem issue_list_by_changeset (strptime : string → option Z) (repo_slug : string)
    (query_params : gmap string string) (repositories : list IssueListView.Repository)
    (revisions_table : list IssueListView.Revision) (issues : list IssueListView.Issue)
    (repo : IssueListView.Repository) (c : string) :
  IssueListView.objects_get repositories repo_slug = IssueListView.Found repo →
  IssueListView.truthy (query_params !! "date") = None →
  query_params !! "revision_changeset" = Some c →
  String.length c = 40%nat →
  ∃ listed,
    IssueListView.get_queryset strptime repo_slug query_params repositories
      revisions_table issues = inr listed ∧
    ∀ i, i ∈ listed ↔
      i ∈ issues ∧ IssueListView.in_repository repo i = true ∧
      (∀ p, IssueListView.truthy (query_params !! "path") = Some p →
            IssueListView.path i = p) ∧
      IssueListView.has_changeset c i = true.
Proof.
  intros Hget Hdate Hrev Hlen. unfold IssueListView.get_queryset.
  rewrite Hget, Hdate, Hrev, (truthy_of_length c Hlen). simpl.
  rewrite (bool_decide_eq_false_2 (String.length c ≠ 40%nat)) by (by intros ?).
  rewrite bool_decide_eq_false_2 by (by intros ?).
  eexists. split; [reflexivity|]. intros i.
  rewrite elem_of_remove_dups, merge_sort_Permutation.
  pose proof (elem_of_repo_path_qs repo query_params issues) as Hqs.
  set (qs := match IssueListView.truthy (query_params !! "path") with
             | Some _ => _ | None => _ end) in *.
  destruct (List.filter (IssueListView.has_changeset c) qs) as [|i0 found] eqn:Hfound.
  - split; [by intros ?%elem_of_nil|]. intros (Hi & Hr & Hp & Hc).
    assert (Hin : i ∈ List.filter (IssueListView.has_changeset c) qs).
    { apply elem_of_List_filter. split; [by apply Hqs | done]. }
    by rewrite Hfound in Hin.
  - simpl. rewrite <- Hfound, elem_of_List_filter, Hqs. tauto.
Qed.

Lemma issue_list_by_changeset_witness :
  ∃ listed,
    IssueListView.get_queryset strptime_two_days "mozilla-central"
      {[ "revision_changeset" := "abcdefabcdefabcdefabcdefabcdefabcdefabcd" ]}
      [repo_mc] [rev_monday; rev_tuesday] [listed_issue_monday; listed_issue_tuesday]
      = inr listed ∧
    ∀ i, i ∈ listed ↔
      i ∈ [listed_issue_monday; listed_issue_tuesday] ∧
      IssueListView.in_repository repo_mc i = true ∧
      (∀ p, IssueListView.truthy
              (({[ "revision_changeset" := "abcdefabcdefabcdefabcdefabcdefabcdefabcd" ]}
                 : gmap string string) !! "path") = Some p →
            IssueListView.path i = p) ∧
      IssueListView.has_changeset "abcdefabcdefabcdefabcdefabcdefabcdefabcd" i = true.
Proof.
  apply (issue_list_by_changeset strptime_two_days "mozilla-central"
    {[ "revision_changeset" := "abcdefabcdefabcdefabcdefabcdefabcdefabcd" ]}
    [repo_mc] [rev_monday; rev_tuesday] [listed_issue_monday; listed_issue_tuesday]
    repo_mc "abcdefabcdefabcdefabcdefabcdefabcdefabcd"); reflexivity.
Defined.

(** X24. What [get_queryset] returns, when it returns a listing: the slug
    names one repository; the listing has no duplicate and is ordered by
    creation time; every issue in it is an issue of the table linked to a
    revision whose head repository is that repository, with the path asked
    for when a path is given; a [revision_changeset] parameter, if any, has
    40 characters and a [date] parameter, if set, parses. *)
Theorem issue_list_postcondition (strptime : string → option Z) (repo_slug : string)
    (query_params : gmap string string) (repositories : list IssueListView.Repository)
    (revisions_table : list IssueListView.Revision) (issues listed : list IssueListView.Issue) :
  IssueListView.get_queryset strptime repo_slug query_params repositories revisions_table issues
    = inr listed →
  ∃ repo,
    IssueListView.objects_get repositories repo_slug = IssueListView.Found repo ∧
    NoDup listed ∧
    StronglySorted IssueListView.issue_created_le listed ∧
    (∀ i, i ∈ listed →
       i ∈ issues ∧ IssueListView.in_repository repo i = true ∧
       ∀ p, IssueListView.truthy (query_params !! "path") = Some p →
            IssueListView.path i = p) ∧
    (∀ c, query_params !! "revision_changeset" = Some c → String.length c = 40%nat) ∧
    (∀ date, IssueListView.truthy (query_params !! "date") = Some date →
             is_Some (strptime date)).
Proof.
  issue_list_cases strptime query_params; simpl; try done;
    (case_bool_decide as Herrors; [done|]);
    try (exfalso; apply Herrors; unfold IssueListView.append_error;
         by apply insert_non_empty);
    intros [= <-]; exists repo; (split; [done|]);
    (split; [apply NoDup_remove_dups|]);
    (split; [apply remove_dups_StronglySorted, StronglySorted_merge_sort; apply _|]);
    (split; [|split; [intros ? [= <-] || intros ? [=]; done
                     | intros ? [= <-] || intros ? [=]; by eauto]]);
    intros i Hi; rewrite elem_of_remove_dups, merge_sort_Permutation in Hi;
    apply (elem_of_repo_path_qs repo query_params issues i);
    repeat case_match; simplify_eq; try done;
    try match goal with
        | H : List.filter _ _ = _ :: _ |- _ => rewrite <- H in Hi
        end;
    try (by apply elem_of_List_filter in Hi as [Hi _]);
    by apply elem_of_nil in Hi.
Qed.

Lemma issue_list_postcondition_witness :
  ∃ repo,
    IssueListView.objects_get [repo_mc] "mozilla-central" = IssueListView.Found repo ∧
    NoDup [listed_issue_tuesday] ∧
    StronglySorted IssueListView.issue_created_le [listed_issue_tuesday] ∧
    (∀ i, i ∈ [listed_issue_tuesday] →
       i ∈ [listed_issue_monday; listed_issue_tuesday] ∧
       IssueListView.in_repository repo i = true ∧
       ∀ p, IssueListView.truthy (({[ "path" := "b.c" ]} : gmap string string) !! "path")
              = Some p → IssueListView.path i = p) ∧
    (∀ c, ({[ "path" := "b.c" ]} : gmap string string) !! "revision_changeset" = Some c →
          String.length c = 40%nat) ∧
    (∀ date, IssueListView.truthy (({[ "path" := "b.c" ]} : gmap string string) !! "date")
               = Some date → is_Some (strptime_two_days date)).
Proof.
  apply (issue_list_postcondition strptime_two_days "mozilla-central" {[ "path" := "b.c" ]}
    [repo_mc] [rev_monday; rev_tuesday] [listed_issue_monday; listed_issue_tuesday]).
  vm_compute. reflexivity.
Defined.




